(** * hid-generic: resolution multipliers and high-resolution scrolling

    A shallow embedding of [drivers/hid/hid-generic.c]: the fallback
    matcher, the scan of the parsed report descriptor for Resolution
    Multiplier controls, their activation with SET_REPORT requests, and
    the translation of wheel events.

    Machine integers are [Z] with the C conversions written out.  The
    driver's entry points run in a small state-and-fault monad over a
    [world]: the [hid_device] with its report structures, the driver data
    hung off it, and the log of the calls made to the HID core, the
    transport and the input layer. *)

From Stdlib Require Import ZArith Lia Bool.
From stdpp Require Import base tactics option numbers list strings.

Local Open Scope Z_scope.

(** ** Machine integers *)

Module C.

Definition UINT_MAX : Z := 4294967295.

(** conversion to [unsigned] *)
Definition u32 (z : Z) : Z := z mod 2 ^ 32.

(** conversion to [int] / [__s32] *)
Definition s32 (z : Z) : Z := (z + 2 ^ 31) mod 2 ^ 32 - 2 ^ 31.

Definition is_s32 (z : Z) : Prop := - 2 ^ 31 <= z < 2 ^ 31.

(** [unsigned * unsigned] *)
Definition umul (a b : Z) : Z := u32 (a * b).

End C.

(** ** Constants of the headers

    The macros below are declared in [include/linux/hid.h],
    [include/uapi/linux/input-event-codes.h] and
    [include/uapi/asm-generic/errno-base.h]; the driver only names
    them.  They carry the values of those headers. *)

Definition HID_GD_WHEEL : Z := 0x00010038.
Definition HID_GD_RESOLUTION_MULTIPLIER : Z := 0x00010048.
Definition HID_CP_AC_PAN : Z := 0x000c0238.

Definition HID_QUIRK_INPUT_PER_APP : Z := Z.shiftl 1 11.
Definition HID_QUIRK_HAVE_SPECIAL_DRIVER : Z := Z.shiftl 1 19.

Definition HID_MAX_IDS : Z := 256.
Definition HID_REQ_SET_REPORT : Z := 0x09.
Definition HID_CONNECT_DEFAULT : Z := 0x2d.

Definition EV_REL : Z := 0x02.
Definition REL_HWHEEL : Z := 0x06.
Definition REL_WHEEL : Z := 0x08.
Definition REL_WHEEL_HI_RES : Z := 0x0b.
Definition REL_HWHEEL_HI_RES : Z := 0x0c.

Definition ENOMEM : Z := 12.

(** ** Report structures (as the descriptor parser hands them over) *)

Record hid_usage := {
  hid : Z;                 (* unsigned: usage page << 16 | usage id *)
  collection_index : Z;    (* unsigned *)
  usage_index : Z;         (* unsigned: index into the field's values *)
}.

(** [struct hid_field].  [usage] points to an array of [maxusage]
    entries; the parser never registers a field without usages, so the
    array is its first entry, which is all [field->usage->...] ever
    reads, and the [maxusage - 1] entries that follow it. *)
Record hid_field := {
  usage : hid_usage;
  usage_rest : list hid_usage;
  value : list Z;          (* __s32 value[report_count] *)
  logical_maximum : Z;     (* __s32 *)
  physical_maximum : Z;    (* __s32 *)
  index : Z;               (* unsigned: position in the report *)
}.

Definition usages (f : hid_field) : list hid_usage := usage f :: usage_rest f.

(** [struct hid_report]: [rep_field] holds the [maxfield] fields. *)
Record hid_report := {
  rep_id : Z;              (* unsigned *)
  rep_field : list hid_field;
}.

Inductive hid_report_type :=
  HID_INPUT_REPORT | HID_OUTPUT_REPORT | HID_FEATURE_REPORT.

(** [struct hid_report_enum], one per report type: the [report_list].
    [report_id_hash] is not stored apart: the parser enters every report
    under its id in both, so the hash is the lookup by id below. *)
Abbreviation hid_report_enum := (list hid_report).

Definition handle := Z.    (* the address of a kernel object, 0 for NULL *)

Record hid_device := {
  hdev_addr : handle;
  quirks : Z;
  input_enum : hid_report_enum;
  output_enum : hid_report_enum;
  feature_enum : hid_report_enum;
}.

Definition report_enum (hdev : hid_device) (t : hid_report_type) :=
  match t with
  | HID_INPUT_REPORT => input_enum hdev
  | HID_OUTPUT_REPORT => output_enum hdev
  | HID_FEATURE_REPORT => feature_enum hdev
  end.

(** ** Driver data *)

(** [unsigned a[2]] *)
Definition array2 := (Z * Z)%type.

Definition at2 (a : array2) (i : nat) : Z :=
  match i with O => a.1 | _ => a.2 end.

Definition set2 (a : array2) (i : nat) (v : Z) : array2 :=
  match i with O => (v, a.2) | _ => (a.1, v) end.

Record hid_generic_device := {
  hdev : handle;           (* hid_device we're attached to *)
  device : handle;         (* struct input_dev * *)
  wheel_multiplier : Z;    (* unsigned *)
  hwheel_multiplier : Z;   (* unsigned *)
  report_id : array2;
  field_index : array2;
}.

(** ** The world the entry points run in *)

(** Calls that leave the driver, with the arguments that matter. *)
Inductive call :=
  | input_report_rel (input : handle) (code : Z) (v : Z)
  | input_sync (input : handle)
  | input_set_capability (input : handle) (type code : Z)
  | hid_hw_request (t : hid_report_type) (id : Z) (reqtype : Z)
  | hid_hw_start (connect_mask : Z)
  | hid_parse
  | hid_err (msg : string)
  | dev_err (msg : string).

Record world := {
  the_hdev : hid_device;
  drvdata : hid_generic_device;   (* hid_get_drvdata(hdev) *)
  calls : list call;              (* oldest first *)
}.

(** State passing with faults: [None] is a memory fault (an index
    outside its array, a NULL report). *)
Definition M (A : Type) : Type := world → option (A * world).

Definition ret {A} (a : A) : M A := λ w, Some (a, w).

Definition bind {A B} (m : M A) (k : A → M B) : M B :=
  λ w, match m w with
       | Some (a, w') => k a w'
       | None => None
       end.

Definition fault {A} : M A := λ _, None.

Declare Scope M_scope.
Delimit Scope M_scope with M.
Bind Scope M_scope with M.

Notation "x <- m ;; k" := (bind m (λ x, k))
  (at level 100, m at next level, right associativity) : M_scope.
Notation "m ;;; k" := (bind m (λ _, k))
  (at level 100, right associativity) : M_scope.

Local Open Scope M_scope.

Definition hid_get_drvdata : M hid_generic_device :=
  λ w, Some (drvdata w, w).

Definition get_hdev : M hid_device :=
  λ w, Some (the_hdev w, w).

Definition set_drvdata (d : hid_generic_device) : M unit :=
  λ w, Some (tt, {| the_hdev := the_hdev w; drvdata := d; calls := calls w |}).

Definition set_hdev (h : hid_device) : M unit :=
  λ w, Some (tt, {| the_hdev := h; drvdata := drvdata w; calls := calls w |}).

Definition do_call (c : call) : M unit :=
  λ w, Some (tt, {| the_hdev := the_hdev w; drvdata := drvdata w;
                    calls := calls w ++ [c] |}).

Definition of_option {A} (o : option A) : M A :=
  match o with Some a => ret a | None => fault end.

Definition modify_drvdata (f : hid_generic_device → hid_generic_device) : M unit :=
  dev <- hid_get_drvdata;; set_drvdata (f dev).

(** Field assignments on the driver data. *)
Definition set_device (v : handle) (d : hid_generic_device) :=
  {| hdev := hdev d; device := v;
     wheel_multiplier := wheel_multiplier d;
     hwheel_multiplier := hwheel_multiplier d;
     report_id := report_id d; field_index := field_index d |}.

Definition set_wheel_multiplier (v : Z) (d : hid_generic_device) :=
  {| hdev := hdev d; device := device d;
     wheel_multiplier := v;
     hwheel_multiplier := hwheel_multiplier d;
     report_id := report_id d; field_index := field_index d |}.

Definition set_hwheel_multiplier (v : Z) (d : hid_generic_device) :=
  {| hdev := hdev d; device := device d;
     wheel_multiplier := wheel_multiplier d;
     hwheel_multiplier := v;
     report_id := report_id d; field_index := field_index d |}.

Definition set_report_id (i : nat) (v : Z) (d : hid_generic_device) :=
  {| hdev := hdev d; device := device d;
     wheel_multiplier := wheel_multiplier d;
     hwheel_multiplier := hwheel_multiplier d;
     report_id := set2 (report_id d) i v; field_index := field_index d |}.

Definition set_field_index (i : nat) (v : Z) (d : hid_generic_device) :=
  {| hdev := hdev d; device := device d;
     wheel_multiplier := wheel_multiplier d;
     hwheel_multiplier := hwheel_multiplier d;
     report_id := report_id d; field_index := set2 (field_index d) i v |}.

(** Assignments inside the report structures. *)
Definition set_value (v : list Z) (f : hid_field) :=
  {| usage := usage f; usage_rest := usage_rest f; value := v;
     logical_maximum := logical_maximum f;
     physical_maximum := physical_maximum f; index := index f |}.

Definition set_rep_field (fs : list hid_field) (r : hid_report) :=
  {| rep_id := rep_id r; rep_field := fs |}.

Definition set_feature_enum (e : hid_report_enum) (h : hid_device) :=
  {| hdev_addr := hdev_addr h; quirks := quirks h; input_enum := input_enum h;
     output_enum := output_enum h; feature_enum := e |}.

Definition set_quirks (q : Z) (h : hid_device) :=
  {| hdev_addr := hdev_addr h; quirks := q; input_enum := input_enum h;
     output_enum := output_enum h; feature_enum := feature_enum h |}.

(** [report_enum->report_id_hash[id]]: the array has [HID_MAX_IDS]
    entries, NULL where no report has the id.  The result is the report
    and its place in the [report_list], through which it is updated. *)
Definition report_id_hash (e : hid_report_enum) (id : Z)
  : option (nat * hid_report) :=
  if decide (0 <= id < HID_MAX_IDS)
  then list_find (λ r, rep_id r = id) e
  else None.

(** ** Capability scanner *)

(** the [for] loop over [rep->field[i]] *)
Fixpoint usage_in_collection_fields
    (fields : list hid_field) (usage_id collection : Z) : bool :=
  match fields with
  | [] => false
  | field :: rest =>
      let usage := usage field in
      if (hid usage =? usage_id) && (collection_index usage =? collection)
      then true
      else usage_in_collection_fields rest usage_id collection
  end.

(** [list_for_each_entry(rep, &report_enum->report_list, list)] *)
Fixpoint usage_in_collection_reports
    (reps : list hid_report) (usage_id collection : Z) : bool :=
  match reps with
  | [] => false
  | rep :: rest =>
      if usage_in_collection_fields (rep_field rep) usage_id collection
      then true
      else usage_in_collection_reports rest usage_id collection
  end.

Definition usage_in_collection
    (hdev : hid_device) (usage_id collection : Z) : bool :=
  usage_in_collection_reports
    (report_enum hdev HID_INPUT_REPORT) usage_id collection.

(** ** Multiplier discovery *)

Definition handle_resolution_multiplier
    (rep : hid_report) (field : hid_field) (usage : hid_usage) : M unit :=
  hdev <- get_hdev;;
  let multiplier := C.u32 (physical_maximum field) in
  let w := usage_in_collection hdev HID_GD_WHEEL (collection_index usage) in
  let h := usage_in_collection hdev HID_CP_AC_PAN (collection_index usage) in
  if negb w && negb h then ret tt else
  (if w then modify_drvdata (set_wheel_multiplier multiplier) else ret tt);;;
  (if h then modify_drvdata (set_hwheel_multiplier multiplier) else ret tt);;;
  dev <- hid_get_drvdata;;
  let assign (which : nat) :=
    (modify_drvdata (set_report_id which (rep_id rep));;;
     modify_drvdata (set_field_index which (index field))) in
  if at2 (report_id dev) 0 =? C.UINT_MAX then assign 0%nat
  else if at2 (report_id dev) 1 =? C.UINT_MAX then assign 1%nat
  else
    (do_call (hid_err "invalid Resolution Multipliers");;;
     modify_drvdata (set_wheel_multiplier 1);;;
     modify_drvdata (set_hwheel_multiplier 1)).

Fixpoint fetch_fields (rep : hid_report) (fields : list hid_field) : M unit :=
  match fields with
  | [] => ret tt
  | field :: rest =>
      let usage := usage field in
      (if hid usage =? HID_GD_RESOLUTION_MULTIPLIER
       then handle_resolution_multiplier rep field usage
       else ret tt);;;
      fetch_fields rep rest
  end.

Fixpoint fetch_reports (reps : list hid_report) : M unit :=
  match reps with
  | [] => ret tt
  | rep :: rest => fetch_fields rep (rep_field rep);;; fetch_reports rest
  end.

Definition hid_generic_fetch_resolution_multiplier : M unit :=
  hdev <- get_hdev;;
  fetch_reports (report_enum hdev HID_FEATURE_REPORT).

(** ** Multiplier activator *)

(** The body of the loop for slot [i]. *)
Definition set_resolution_multiplier_slot (i : nat) : M unit :=
  hdev <- get_hdev;;
  dev <- hid_get_drvdata;;
  let report_enum := report_enum hdev HID_FEATURE_REPORT in
  found <- of_option (report_id_hash report_enum (at2 (report_id dev) i));;
  let rep := found.2 in
  let fi := Z.to_nat (at2 (field_index dev) i) in
  field <- of_option (rep_field rep !! fi);;
  let usage := usage field in
  let index := Z.to_nat (usage_index usage) in
  if decide (index < length (value field))%nat then
    let field' := set_value (<[index := logical_maximum field]> (value field)) field in
    let rep' := set_rep_field (<[fi := field']> (rep_field rep)) rep in
    set_hdev (set_feature_enum (<[found.1 := rep']> report_enum) hdev);;;
    do_call (hid_hw_request HID_FEATURE_REPORT (rep_id rep) HID_REQ_SET_REPORT)
  else fault.

(** [for (i = 0; i < 2; i++)], over the values [i] still takes *)
Fixpoint set_resolution_multiplier_loop (slots : list nat) : M unit :=
  match slots with
  | [] => ret tt
  | i :: rest =>
      dev <- hid_get_drvdata;;
      if at2 (report_id dev) i =? C.UINT_MAX then ret tt
      else (set_resolution_multiplier_slot i;;;
            set_resolution_multiplier_loop rest)
  end.

Definition hid_generic_set_resolution_multiplier : M unit :=
  dev <- hid_get_drvdata;;
  if (wheel_multiplier dev =? 1) && (hwheel_multiplier dev =? 1) then ret tt
  else set_resolution_multiplier_loop [0; 1]%nat.

(** ** Attach *)

(** What the collaborators answer during one attach: whether
    [devm_kzalloc] returned memory, and the results of [hid_parse] and
    [hid_hw_start].  The report structures [hid_parse] builds are those
    of [the_hdev]. *)
Record probe_env := {
  devm_kzalloc_ok : bool;
  hid_parse_ret : Z;
  hid_hw_start_ret : Z;
}.

(** the assignments of lines 212-219 to the zeroed allocation *)
Definition probe_drvdata (hdev : hid_device) : hid_generic_device :=
  {| hdev := hdev_addr hdev; device := 0;
     wheel_multiplier := 1; hwheel_multiplier := 1;
     report_id := (C.UINT_MAX, C.UINT_MAX);
     field_index := (C.UINT_MAX, C.UINT_MAX) |}.

Definition hid_generic_probe (env : probe_env) : M Z :=
  if negb (devm_kzalloc_ok env) then
    (do_call (dev_err "cannot allocate hid-generic data");;;
     ret (- ENOMEM))
  else
    hdev <- get_hdev;;
    set_drvdata (probe_drvdata hdev);;;
    set_hdev (set_quirks (Z.lor (quirks hdev) HID_QUIRK_INPUT_PER_APP) hdev);;;
    do_call hid_parse;;;
    let r := hid_parse_ret env in
    if negb (r =? 0) then ret r else
    hid_generic_fetch_resolution_multiplier;;;
    do_call (hid_hw_start HID_CONNECT_DEFAULT);;;
    let r := hid_hw_start_ret env in
    hid_generic_set_resolution_multiplier;;;
    ret r.

(** ** Event translator *)

(** [usage'] is the [usage] argument; the [switch] is on
    [field->usage->hid].  [value] is an [__s32]; the product with the
    [unsigned] multiplier is taken in [unsigned] and passed as [int]. *)
Definition hid_generic_event
    (field : hid_field) (usage' : hid_usage) (value : Z) : M Z :=
  dev <- hid_get_drvdata;;
  let device := device dev in
  let sw := hid (usage field) in
  (if sw =? HID_GD_WHEEL then
     do_call (input_report_rel device REL_WHEEL_HI_RES
                (C.s32 (C.umul (C.u32 value) (wheel_multiplier dev))));;;
     do_call (input_report_rel device REL_WHEEL value);;;
     do_call (input_sync device)
   else if sw =? HID_CP_AC_PAN then
     do_call (input_report_rel device REL_HWHEEL_HI_RES
                (C.s32 (C.umul (C.u32 value) (hwheel_multiplier dev))));;;
     do_call (input_report_rel device REL_HWHEEL value);;;
     do_call (input_sync device)
   else ret tt);;;
  ret 1.

(** ** Capability advertisement *)

(** [input] is [hidinput->input]. *)
Definition hid_generic_input_configured (input : handle) : M Z :=
  modify_drvdata (set_device input);;;
  dev <- hid_get_drvdata;;
  (if 1 <? wheel_multiplier dev
   then do_call (input_set_capability input EV_REL REL_WHEEL_HI_RES)
   else ret tt);;;
  (if 1 <? hwheel_multiplier dev
   then do_call (input_set_capability input EV_REL REL_HWHEEL_HI_RES)
   else ret tt);;;
  ret 0.

(** ** Resume *)

Definition hid_generic_reset_resume : M Z :=
  hid_generic_set_resolution_multiplier;;;
  ret 0.

(** ** The grabbed usages *)


(** ** Fallback matcher *)

Section Matcher.

(** The drivers registered on the HID bus, with the identity that
    [hdrv == &hid_generic] compares, and [hid_match_device] of the HID
    core as the test [hid_match_device(hdev, hdrv) != NULL]. *)
Context {hid_driver : Type} `{EqDecision hid_driver}.
Variable hid_generic : hid_driver.
Variable hid_match_device : hid_device → hid_driver → bool.

(** Modelled from the spec: [bus_for_each_drv] of the driver core is
    not among the sources.  It scans all registered drivers, here
    [drivers], calling [fn] on each with [data]; the scan stops at the
    first call that answers nonzero and returns that answer, and it
    returns 0 when every call answered 0. *)
Fixpoint bus_for_each_drv {D : Type}
    (drivers : list hid_driver) (data : D)
    (fn : hid_driver → D → Z) : Z :=
  match drivers with
  | [] => 0
  | drv :: rest =>
      let error := fn drv data in
      if error =? 0 then bus_for_each_drv rest data fn else error
  end.

Definition __check_hid_generic (hdrv : hid_driver) (hdev : hid_device) : Z :=
  if decide (hdrv = hid_generic) then 0
  else if hid_match_device hdev hdrv then 1 else 0.

Definition hid_generic_match
    (drivers : list hid_driver)
    (hdev : hid_device) (ignore_special_driver : bool) : bool :=
  if ignore_special_driver then true
  else if negb (Z.land (quirks hdev) HID_QUIRK_HAVE_SPECIAL_DRIVER =? 0)
  then false
  else if negb (bus_for_each_drv drivers hdev __check_hid_generic =? 0)
  then false
  else true.

End Matcher.

(** ** Vocabulary of the properties *)

(** The world after more calls have been logged. *)
Definition log (w : world) (cs : list call) : world :=
  {| the_hdev := the_hdev w; drvdata := drvdata w; calls := calls w ++ cs |}.

(** The three calls of one [case] of the [switch]. *)
Definition scroll_calls (input : handle) (hi_res legacy : Z) (v mult : Z) :=
  [ input_report_rel input hi_res (C.s32 (v * mult));
    input_report_rel input legacy v;
    input_sync input ].

(** The calls the wheel [case] would make if the product were taken
    in the integers instead of in [unsigned]. *)
Definition exact_scroll_calls (input : handle) (hi_res legacy : Z) (v mult : Z) :=
  [ input_report_rel input hi_res (v * mult);
    input_report_rel input legacy v;
    input_sync input ].

(** [flagged hdev]: the device asks for a special driver. *)
Definition flagged (hdev : hid_device) : Prop :=
  Z.testbit (quirks hdev) 19 = true.

(** ** Sample devices *)

Module Ex.

Definition HID_GD_X : Z := 0x00010030.
Definition HID_GD_Y : Z := 0x00010031.

Definition usage_of (h c : Z) : hid_usage :=
  {| hid := h; collection_index := c; usage_index := 0 |}.

(** a field of one usage and one value *)
Definition field_of (h c lmax pmax i : Z) : hid_field :=
  {| usage := usage_of h c; usage_rest := []; value := [0];
     logical_maximum := lmax; physical_maximum := pmax; index := i |}.

Definition x_field := field_of HID_GD_X 1 127 0 0.
Definition wheel_field := field_of HID_GD_WHEEL 2 127 0 1.
Definition pan_field := field_of HID_CP_AC_PAN 3 127 0 2.

(** A mouse with a wheel and a horizontal wheel, each in a collection
    of its own together with its Resolution Multiplier feature. *)
Definition mouse : hid_device :=
  {| hdev_addr := 4096; quirks := 0;
     input_enum :=
       [ {| rep_id := 1; rep_field := [x_field; wheel_field; pan_field] |} ];
     output_enum := [];
     feature_enum :=
       [ {| rep_id := 2;
            rep_field :=
              [ field_of HID_GD_RESOLUTION_MULTIPLIER 2 1 8 0;
                field_of HID_GD_RESOLUTION_MULTIPLIER 3 1 4 1 ] |} ] |}.

(** X, Y and the wheel reported by one field of three usages. *)
Definition pointer_field : hid_field :=
  {| usage := usage_of HID_GD_X 1;
     usage_rest :=
       [ {| hid := HID_GD_Y; collection_index := 1; usage_index := 1 |};
         {| hid := HID_GD_WHEEL; collection_index := 1; usage_index := 2 |} ];
     value := [0; 0; 0];
     logical_maximum := 127; physical_maximum := 0; index := 0 |}.

Definition plain_mouse : hid_device :=
  {| hdev_addr := 4096; quirks := 0;
     input_enum := [ {| rep_id := 1; rep_field := [pointer_field] |} ];
     output_enum := [];
     feature_enum := [] |}.

(** the driver data with the given multipliers and no slot in use *)
Definition dev_of (h : hid_device) (wm hm : Z) : hid_generic_device :=
  set_hwheel_multiplier hm (set_wheel_multiplier wm (probe_drvdata h)).

Definition world_of (h : hid_device) (d : hid_generic_device) : world :=
  {| the_hdev := h; drvdata := d; calls := [] |}.

End Ex.

(** ** Slots *)

(** A slot is in use when its report id is not the [-1] it was
    initialised to. *)
Definition occupied (dev : hid_generic_device) (i : nat) : Prop :=
  at2 (report_id dev) i ≠ C.UINT_MAX.

Definition occupied_slots (dev : hid_generic_device) : list nat :=
  filter (occupied dev) [0; 1]%nat.

(** Slot 1 is only in use when slot 0 is. *)
Definition slot_prefix (dev : hid_generic_device) : Prop :=
  occupied dev 1 → occupied dev 0.

(** The slots the loop of the activator reaches among [slots]: those
    before the first empty one. *)
Fixpoint visited (dev : hid_generic_device) (slots : list nat) : list nat :=
  match slots with
  | [] => []
  | i :: rest => if decide (occupied dev i) then i :: visited dev rest else []
  end.

(** The field that a pair (report id, field index) designates in a
    report set: [report_id_hash[id]->field[fi]]. *)
Definition slot_field (e : hid_report_enum) (id fi : Z) : option hid_field :=
  match report_id_hash e id with
  | Some found => rep_field found.2 !! Z.to_nat fi
  | None => None
  end.

Definition field_of_slot (w : world) (i : nat) : option hid_field :=
  slot_field (report_enum (the_hdev w) HID_FEATURE_REPORT)
    (at2 (report_id (drvdata w)) i) (at2 (field_index (drvdata w)) i).

(** [value[usage->usage_index]] exists. *)
Definition writable (f : hid_field) : Prop :=
  (Z.to_nat (usage_index (usage f)) < length (value f))%nat.

(** [value[usage->usage_index]] is the logical maximum. *)
Definition at_maximum (f : hid_field) : Prop :=
  value f !! Z.to_nat (usage_index (usage f)) = Some (logical_maximum f).

(** Every slot in use designates a field whose value can be written. *)
Definition slots_resolve (w : world) : Prop :=
  ∀ i, i ∈ occupied_slots (drvdata w) →
       ∃ f, field_of_slot w i = Some f ∧ writable f.

(** The SET_REPORT request for the report of slot [i]. *)
Definition request (dev : hid_generic_device) (i : nat) : call :=
  hid_hw_request HID_FEATURE_REPORT (at2 (report_id dev) i) HID_REQ_SET_REPORT.

(** The same field but for its values, none of which left the logical
    maximum. *)
Definition field_evolves (f f' : hid_field) : Prop :=
  usage f' = usage f ∧ usage_rest f' = usage_rest f ∧
  logical_maximum f' = logical_maximum f ∧
  physical_maximum f' = physical_maximum f ∧
  index f' = index f ∧
  length (value f') = length (value f) ∧
  (at_maximum f → at_maximum f').

Definition enum_evolves (e e' : hid_report_enum) : Prop :=
  ∀ id fi f, slot_field e id fi = Some f →
             ∃ f', slot_field e' id fi = Some f' ∧ field_evolves f f'.

(** The device but for the values of its feature reports. *)
Definition hdev_evolves (h h' : hid_device) : Prop :=
  hdev_addr h' = hdev_addr h ∧ quirks h' = quirks h ∧
  input_enum h' = input_enum h ∧ output_enum h' = output_enum h ∧
  enum_evolves (feature_enum h) (feature_enum h').

(** The requests one activation makes. *)
Definition activation_requests (dev : hid_generic_device) : list call :=
  if (wheel_multiplier dev =? 1) && (hwheel_multiplier dev =? 1) then []
  else request dev <$> visited dev [0; 1]%nat.

(** a world in which the mouse is attached and both slots are in use *)
Definition Ex_attached : world :=
  {| the_hdev := Ex.mouse;
     drvdata := {| hdev := 4096; device := 0;
                   wheel_multiplier := 8; hwheel_multiplier := 4;
                   report_id := (2, 2); field_index := (0, 1) |};
     calls := [] |}.

(** ** Discovery, field by field *)

(** The wheel or the horizontal wheel is in the collection of the
    field's usage, as the scanner sees it. *)
Definition qualifies (hdev : hid_device) (field : hid_field) : bool :=
  usage_in_collection hdev HID_GD_WHEEL (collection_index (usage field)) ||
  usage_in_collection hdev HID_CP_AC_PAN (collection_index (usage field)).

(** The fields discovery hands to [handle_resolution_multiplier], each
    with its report, in the order of the two loops. *)
Definition rm_fields (e : hid_report_enum) : list (hid_report * hid_field) :=
  flat_map
    (λ rep, (λ f, (rep, f)) <$>
            filter (λ f, hid (usage f) = HID_GD_RESOLUTION_MULTIPLIER)
                   (rep_field rep))
    e.

Definition qualifying_fields (hdev : hid_device)
  : list (hid_report * hid_field) :=
  filter (λ p, qualifies hdev p.2 = true) (rm_fields (feature_enum hdev)).

(** What one call of [handle_resolution_multiplier] on a field and its
    leading usage does to the driver data, and what it logs. *)
Definition assign_slot (hdev : hid_device) (p : hid_report * hid_field)
    (dev : hid_generic_device) : hid_generic_device * list call :=
  let '(rep, field) := p in
  let multiplier := C.u32 (physical_maximum field) in
  let w := usage_in_collection hdev HID_GD_WHEEL
             (collection_index (usage field)) in
  let h := usage_in_collection hdev HID_CP_AC_PAN
             (collection_index (usage field)) in
  if negb (qualifies hdev field) then (dev, []) else
  let dev := if w then set_wheel_multiplier multiplier dev else dev in
  let dev := if h then set_hwheel_multiplier multiplier dev else dev in
  if at2 (report_id dev) 0 =? C.UINT_MAX then
    (set_field_index 0 (index field) (set_report_id 0 (rep_id rep) dev), [])
  else if at2 (report_id dev) 1 =? C.UINT_MAX then
    (set_field_index 1 (index field) (set_report_id 1 (rep_id rep) dev), [])
  else
    (set_hwheel_multiplier 1 (set_wheel_multiplier 1 dev),
     [hid_err "invalid Resolution Multipliers"]).

Fixpoint assign_slots (hdev : hid_device) (l : list (hid_report * hid_field))
    (dev : hid_generic_device) : hid_generic_device * list call :=
  match l with
  | [] => (dev, [])
  | p :: rest =>
      let r1 := assign_slot hdev p dev in
      let r2 := assign_slots hdev rest r1.1 in
      (r2.1, r1.2 ++ r2.2)
  end.

(** The driver data discovery leaves, started on [dev]. *)
Definition discovered (hdev : hid_device) (dev : hid_generic_device) :=
  assign_slots hdev (rm_fields (report_enum hdev HID_FEATURE_REPORT)) dev.

(** The world when [hid_parse] has returned during attach. *)
Definition probe_parsed (w : world) : world :=
  {| the_hdev :=
       set_quirks (Z.lor (quirks (the_hdev w)) HID_QUIRK_INPUT_PER_APP)
                  (the_hdev w);
     drvdata := probe_drvdata (the_hdev w);
     calls := calls w ++ [hid_parse] |}.

Definition is_request (c : call) : bool :=
  match c with hid_hw_request _ _ _ => true | _ => false end.

(** What the parser guarantees of a report set: report ids are below
    [HID_MAX_IDS] ... *)
Definition ids_valid (e : hid_report_enum) : Prop :=
  ∀ rep, rep ∈ e → 0 <= rep_id rep < HID_MAX_IDS.

(** ... no two reports share an id, every field knows its place in its
    report, and has a value for its leading usage. *)
Definition wf_enum (e : hid_report_enum) : Prop :=
  ids_valid e ∧ NoDup (rep_id <$> e) ∧
  ∀ rep k f, rep ∈ e → rep_field rep !! k = Some f →
             index f = Z.of_nat k ∧ writable f.

(** The number of slots in use, counted as the activator meets them. *)
Definition slots_in_use (dev : hid_generic_device) : nat :=
  length (visited dev [0; 1]%nat).

(** Every slot in use designates a writable field of the report set. *)
Definition resolves_in (e : hid_report_enum) (dev : hid_generic_device) : Prop :=
  ∀ i, i ∈ occupied_slots dev →
       ∃ f, slot_field e (at2 (report_id dev) i) (at2 (field_index dev) i)
              = Some f ∧ writable f.

(** The world when [hid_hw_start] has returned during attach. *)
Definition probe_started (w : world) : world :=
  let w1 := probe_parsed w in
  let d := discovered (the_hdev w1) (drvdata w1) in
  {| the_hdev := the_hdev w1; drvdata := d.1;
     calls := calls w1 ++ d.2 ++ [hid_hw_start HID_CONNECT_DEFAULT] |}.

(** No field of a feature report carries the Resolution Multiplier
    usage. *)
Definition no_resolution_multiplier (h : hid_device) : Prop :=
  ∀ rep f u, rep ∈ report_enum h HID_FEATURE_REPORT → f ∈ rep_field rep →
             u ∈ usages f → hid u ≠ HID_GD_RESOLUTION_MULTIPLIER.

(** ** The states of the driver data

    The worlds that the driver's operations produce, from the moment
    attach has initialised the driver data. *)
Inductive reachable : world → Prop :=
  | reachable_attach w :
      reachable (probe_parsed w)
  | reachable_handle w rep field w' :
      reachable w →
      handle_resolution_multiplier rep field (usage field) w = Some (tt, w') →
      reachable w'
  | reachable_fetch w w' :
      reachable w →
      hid_generic_fetch_resolution_multiplier w = Some (tt, w') →
      reachable w'
  | reachable_set w w' :
      reachable w →
      hid_generic_set_resolution_multiplier w = Some (tt, w') →
      reachable w'
  | reachable_probe env w r w' :
      devm_kzalloc_ok env = true →
      hid_generic_probe env w = Some (r, w') →
      reachable w'
  | reachable_event w field usage' v r w' :
      reachable w →
      hid_generic_event field usage' v w = Some (r, w') →
      reachable w'
  | reachable_input_configured w input r w' :
      reachable w →
      hid_generic_input_configured input w = Some (r, w') →
      reachable w'
  | reachable_reset_resume w r w' :
      reachable w →
      hid_generic_reset_resume w = Some (r, w') →
      reachable w'.

(** an attach of the mouse during which [hid_hw_start] fails with -EIO *)
Definition Ex_env : probe_env :=
  {| devm_kzalloc_ok := true; hid_parse_ret := 0; hid_hw_start_ret := -5 |}.

(** A device whose descriptor declares three Resolution Multipliers in
    the collection of the wheel. *)
Definition Ex_three : hid_device :=
  {| hdev_addr := 4096; quirks := 0;
     input_enum :=
       [ {| rep_id := 1; rep_field := [Ex.x_field; Ex.wheel_field] |} ];
     output_enum := [];
     feature_enum :=
       [ {| rep_id := 2;
            rep_field :=
              [ Ex.field_of HID_GD_RESOLUTION_MULTIPLIER 2 1 8 0;
                Ex.field_of HID_GD_RESOLUTION_MULTIPLIER 2 1 8 1 ] |};
         {| rep_id := 3;
            rep_field :=
              [ Ex.field_of HID_GD_RESOLUTION_MULTIPLIER 2 1 8 0 ] |} ] |}.

(** The capabilities declared when the input device is configured. *)
Definition advertised (input : handle) (dev : hid_generic_device) : list call :=
  (if 1 <? wheel_multiplier dev
   then [input_set_capability input EV_REL REL_WHEEL_HI_RES] else []) ++
  (if 1 <? hwheel_multiplier dev
   then [input_set_capability input EV_REL REL_HWHEEL_HI_RES] else []).

(** the mouse when discovery has run during attach *)
Definition Ex_discovered : world :=
  {| the_hdev := set_quirks 2048 Ex.mouse;
     drvdata := {| hdev := 4096; device := 0;
                   wheel_multiplier := 8; hwheel_multiplier := 4;
                   report_id := (2, 2); field_index := (0, 1) |};
     calls := [hid_parse] |}.

(** ** Vocabulary of the further properties *)

(** The field once [field->value[usage->usage_index]] has been set to
    the logical maximum. *)
Definition written (f : hid_field) : hid_field :=
  set_value (<[Z.to_nat (usage_index (usage f)) := logical_maximum f]> (value f)) f.

(** Slot [i] of the driver data designates the field that the pair
    [(id, fi)] designates. *)
Definition designates (dev : hid_generic_device) (i : nat) (id fi : Z) : Prop :=
  id = at2 (report_id dev) i ∧
  Z.to_nat fi = Z.to_nat (at2 (field_index dev) i).

#[global] Instance designates_dec dev i id fi : Decision (designates dev i id fi) :=
  ltac:(unfold designates; apply _).

(** the attached mouse, but slot 0 names a report the device has not *)
Definition Ex_dangling : world :=
  {| the_hdev := Ex.mouse;
     drvdata := {| hdev := 4096; device := 0;
                   wheel_multiplier := 8; hwheel_multiplier := 4;
                   report_id := (7, C.UINT_MAX);
                   field_index := (0, C.UINT_MAX) |};
     calls := [] |}.

(** The worlds that the callbacks of the HID core lead to from [w0]:
    events, configurations of input devices and resumes, in any number
    and order. *)
Inductive serving (w0 : world) : world → Prop :=
  | serving_start : serving w0 w0
  | serving_event w field usage' v r w' :
      serving w0 w →
      hid_generic_event field usage' v w = Some (r, w') →
      serving w0 w'
  | serving_input_configured w input r w' :
      serving w0 w →
      hid_generic_input_configured input w = Some (r, w') →
      serving w0 w'
  | serving_reset_resume w r w' :
      serving w0 w →
      hid_generic_reset_resume w = Some (r, w') →
      serving w0 w'.

(** [g] of the first two entries of [q], [-1] where [q] has none. *)
Definition first_two (g : hid_report * hid_field → Z)
    (q : list (hid_report * hid_field)) : array2 :=
  (default C.UINT_MAX (g <$> q !! 0%nat), default C.UINT_MAX (g <$> q !! 1%nat)).

(** The physical maximum, as [unsigned], of the last field of [q] that
    has the usage [usage_id] in its collection; 1 when [q] has none. *)
Definition last_multiplier (h : hid_device) (usage_id : Z)
    (q : list (hid_report * hid_field)) : Z :=
  default 1
    (last ((λ p, C.u32 (physical_maximum p.2)) <$>
           filter (λ p, usage_in_collection h usage_id
                          (collection_index (usage p.2)) = true) q)).

(** three Resolution Multipliers in the collection of the wheel, and
    discovery about to run *)
Definition Ex_three_parsed : world :=
  probe_parsed (Ex.world_of Ex_three (probe_drvdata Ex_three)).

(** The requests of an attach: none when more than two fields qualify
    or when both multipliers come out as 1, else one for the report of
    each of the qualifying fields. *)
Definition attach_requests (h : hid_device) : list call :=
  let q := qualifying_fields h in
  if decide ((length q ≤ 2)%nat ∧
             ¬ (last_multiplier h HID_GD_WHEEL q = 1 ∧
                last_multiplier h HID_CP_AC_PAN q = 1))
  then (λ p, hid_hw_request HID_FEATURE_REPORT (rep_id p.1) HID_REQ_SET_REPORT)
         <$> take 2 q
  else [].

(** ** Delivery of events *)




(** Some usage of some field of an input report is the wheel or the
    horizontal wheel and is in the collection. *)
Definition collection_has_axis (h : hid_device) (collection : Z) : bool :=
  existsb
    (λ rep,
       existsb
         (λ g,
            existsb
              (λ u, ((hid u =? HID_GD_WHEEL) || (hid u =? HID_CP_AC_PAN)) &&
                    (collection_index u =? collection))
              (usages g))
         (rep_field rep))
    (report_enum h HID_INPUT_REPORT).

(** A mouse with a wheel of its own in collection 2 and a second wheel
    reported with X and Y by one field in collection 1, and three
    Resolution Multipliers: two in collection 2, one in collection 1. *)
Definition Ex_three_mixed : hid_device :=
  {| hdev_addr := 4096; quirks := 0;
     input_enum :=
       [ {| rep_id := 1; rep_field := [Ex.pointer_field; Ex.wheel_field] |} ];
     output_enum := [];
     feature_enum :=
       [ {| rep_id := 2;
            rep_field :=
              [ Ex.field_of HID_GD_RESOLUTION_MULTIPLIER 2 1 8 0;
                Ex.field_of HID_GD_RESOLUTION_MULTIPLIER 2 1 8 1 ] |};
         {| rep_id := 3;
            rep_field :=
              [ Ex.field_of HID_GD_RESOLUTION_MULTIPLIER 1 1 8 0 ] |} ] |}.

(** the wheel of [Ex.pointer_field]: its third usage *)
Definition Ex_pointer_wheel : hid_usage :=
  {| hid := HID_GD_WHEEL; collection_index := 1; usage_index := 2 |}.

(** a mouse with a wheel and a horizontal wheel in fields of their own
    and no feature report *)
Definition Ex_wheels : hid_device :=
  {| hdev_addr := 4096; quirks := 0;
     input_enum :=
       [ {| rep_id := 1;
            rep_field := [Ex.x_field; Ex.wheel_field; Ex.pan_field] |} ];
     output_enum := [];
     feature_enum := [] |}.

(** [field] is a field of an input report of the device. *)
Definition input_field (h : hid_device) (field : hid_field) : Prop :=
  ∃ rep, rep ∈ report_enum h HID_INPUT_REPORT ∧ field ∈ rep_field rep.

(** * Properties *)

(** ** Running the monad *)

Lemma world_eta (w : world) :
  {| the_hdev := the_hdev w; drvdata := drvdata w; calls := calls w |} = w.
Proof. by destruct w. Qed.

Lemma log_nil (w : world) : log w [] = w.
Proof. destruct w; unfold log; simpl. by rewrite app_nil_r. Qed.

Lemma bind_Some {A B} (m : M A) (k : A → M B) w a w' :
  m w = Some (a, w') → bind m k w = k a w'.
Proof. unfold bind. by intros ->. Qed.

Lemma bind_inv {A B} (m : M A) (k : A → M B) w b w2 :
  bind m k w = Some (b, w2) →
  ∃ a w1, m w = Some (a, w1) ∧ k a w1 = Some (b, w2).
Proof.
  unfold bind. destruct (m w) as [[a w1]|] eqn:E; [|done].
  intros H. by exists a, w1.
Qed.

Ltac run :=
  unfold modify_drvdata, hid_get_drvdata, get_hdev, set_drvdata, set_hdev,
    do_call, of_option, bind, ret, fault in *; simpl in *.

(** ** Machine arithmetic *)

Lemma s32_umul (v m : Z) : C.s32 (C.umul (C.u32 v) m) = C.s32 (v * m).
Proof.
  unfold C.s32, C.umul, C.u32. f_equal.
  rewrite Z.add_mod_idemp_l by lia.
  rewrite <- (Zplus_mod_idemp_l (v * m)).
  rewrite <- (Zplus_mod_idemp_l (v mod 2 ^ 32 * m)).
  f_equal. f_equal.
  by rewrite Z.mul_mod_idemp_l by lia.
Qed.

Lemma s32_id (z : Z) : C.is_s32 z → C.s32 z = z.
Proof.
  unfold C.is_s32, C.s32. intros H.
  rewrite Z.mod_small; lia.
Qed.

(** ** Event translator *)

Lemma hid_generic_event_wheel w field usage' v :
  hid (usage field) = HID_GD_WHEEL →
  hid_generic_event field usage' v w =
    Some (1, log w (scroll_calls (device (drvdata w))
                      REL_WHEEL_HI_RES REL_WHEEL v
                      (wheel_multiplier (drvdata w)))).
Proof.
  intros H. unfold hid_generic_event. run. rewrite H. simpl.
  unfold log, scroll_calls. simpl.
  rewrite s32_umul. by rewrite <- !app_assoc.
Qed.

Lemma hid_generic_event_pan w field usage' v :
  hid (usage field) = HID_CP_AC_PAN →
  hid_generic_event field usage' v w =
    Some (1, log w (scroll_calls (device (drvdata w))
                      REL_HWHEEL_HI_RES REL_HWHEEL v
                      (hwheel_multiplier (drvdata w)))).
Proof.
  intros H. unfold hid_generic_event. run. rewrite H. simpl.
  unfold log, scroll_calls. simpl.
  rewrite s32_umul. by rewrite <- !app_assoc.
Qed.

Lemma hid_generic_event_other w field usage' v :
  hid (usage field) ≠ HID_GD_WHEEL →
  hid (usage field) ≠ HID_CP_AC_PAN →
  hid_generic_event field usage' v w = Some (1, w).
Proof.
  intros H1 H2. unfold hid_generic_event. run.
  destruct (Z.eqb_spec (hid (usage field)) HID_GD_WHEEL); [done|].
  destruct (Z.eqb_spec (hid (usage field)) HID_CP_AC_PAN); [done|].
  by destruct w.
Qed.


Lemma hid_generic_event_drvdata w field usage' v :
  ∃ w', hid_generic_event field usage' v w = Some (1, w') ∧
        drvdata w' = drvdata w ∧ the_hdev w' = the_hdev w.
Proof.
  destruct (Z.eqb_spec (hid (usage field)) HID_GD_WHEEL) as [E|N1].
  { eexists. split; [by apply hid_generic_event_wheel|done]. }
  destruct (Z.eqb_spec (hid (usage field)) HID_CP_AC_PAN) as [E|N2].
  { eexists. split; [by apply hid_generic_event_pan|done]. }
  exists w. split; [by apply hid_generic_event_other|done].
Qed.

(** C1 as stated fails in two ways.  Where the product leaves the
    [int] range the value sent is not the product: the wheel multiplier
    is 8 and the value 2^29, the product in the integers is 2^32, and
    the event sent has the value 0.  And a wheel event that comes
    through a field whose first usage is another one is not translated
    at all: the wheel is the third usage of the field, after X and Y,
    and nothing is sent. *)
Lemma hid_generic_event_wheel_fails :
  let w := Ex.world_of Ex.mouse (Ex.dev_of Ex.mouse 8 1) in
  (hid (usage Ex.wheel_field) = HID_GD_WHEEL ∧
   hid_generic_event Ex.wheel_field (usage Ex.wheel_field) 536870912 w
     = Some (1, log w [ input_report_rel 0 REL_WHEEL_HI_RES 0;
                        input_report_rel 0 REL_WHEEL 536870912;
                        input_sync 0 ]) ∧
   hid_generic_event Ex.wheel_field (usage Ex.wheel_field) 536870912 w
     ≠ Some (1, log w (exact_scroll_calls 0 REL_WHEEL_HI_RES REL_WHEEL
                         536870912 8))) ∧
  (hid Ex_pointer_wheel = HID_GD_WHEEL ∧
   Ex_pointer_wheel ∈ usages Ex.pointer_field ∧
   hid_generic_event Ex.pointer_field Ex_pointer_wheel 3 w = Some (1, w) ∧
   hid_generic_event Ex.pointer_field Ex_pointer_wheel 3 w
     ≠ Some (1, log w (exact_scroll_calls 0 REL_WHEEL_HI_RES REL_WHEEL 3 8))).
Proof.
  intros w. split.
  - split; [done|]. split; [by vm_compute|].
    intros H. vm_compute in H. discriminate H.
  - split; [done|]. split; [right; right; left|]. split; [by vm_compute|].
    intros H. vm_compute in H. discriminate H.
Qed.

(** C1 (amended): for an event whose usage is the wheel usage and is
    the first usage of its field, the one [field->usage] points to, the
    translator sends a high-resolution wheel event, then the legacy
    wheel event with the value as it came, then the synchronization,
    and returns 1; the value of the high-resolution event is the
    product of the value and [wheel_multiplier] brought back into the
    [int] range modulo 2^32, which is the product itself whenever that
    is in the range.  The horizontal wheel does the same with
    [hwheel_multiplier] and the horizontal codes. *)
Theorem hid_generic_event_scroll w field usage' v :
  usage' = usage field →
  let dev := drvdata w in
  (hid usage' = HID_GD_WHEEL →
   hid_generic_event field usage' v w =
     Some (1, log w (scroll_calls (device dev) REL_WHEEL_HI_RES REL_WHEEL
                       v (wheel_multiplier dev)))) ∧
  (hid usage' = HID_CP_AC_PAN →
   hid_generic_event field usage' v w =
     Some (1, log w (scroll_calls (device dev) REL_HWHEEL_HI_RES REL_HWHEEL
                       v (hwheel_multiplier dev)))) ∧
  (∀ hi_res legacy mult,
     C.is_s32 (v * mult) →
     scroll_calls (device dev) hi_res legacy v mult =
     exact_scroll_calls (device dev) hi_res legacy v mult).
Proof.
  intros -> dev. split; [apply hid_generic_event_wheel|].
  split; [apply hid_generic_event_pan|].
  intros hi_res legacy mult H. unfold scroll_calls, exact_scroll_calls.
  by rewrite s32_id.
Qed.

(** The scenario of C1: value 3 with wheel multiplier 8 gives 24 and 3;
    value -2 on the horizontal wheel with multiplier 1 gives -2 twice. *)
Lemma hid_generic_event_scroll_witness :
  (let w := Ex.world_of Ex.mouse (Ex.dev_of Ex.mouse 8 1) in
   hid_generic_event Ex.wheel_field (usage Ex.wheel_field) 3 w =
     Some (1, log w [ input_report_rel 0 REL_WHEEL_HI_RES 24;
                      input_report_rel 0 REL_WHEEL 3;
                      input_sync 0 ])) ∧
  (let w := Ex.world_of Ex.mouse (Ex.dev_of Ex.mouse 8 1) in
   hid_generic_event Ex.pan_field (usage Ex.pan_field) (-2) w =
     Some (1, log w [ input_report_rel 0 REL_HWHEEL_HI_RES (-2);
                      input_report_rel 0 REL_HWHEEL (-2);
                      input_sync 0 ])) ∧
  scroll_calls 0 REL_WHEEL_HI_RES REL_WHEEL 3 8 =
  exact_scroll_calls 0 REL_WHEEL_HI_RES REL_WHEEL 3 8.
Proof.
  split; [|split].
  - exact (proj1 (hid_generic_event_scroll
                    (Ex.world_of Ex.mouse (Ex.dev_of Ex.mouse 8 1))
                    Ex.wheel_field (usage Ex.wheel_field) 3 eq_refl) eq_refl).
  - exact (proj1 (proj2 (hid_generic_event_scroll
                    (Ex.world_of Ex.mouse (Ex.dev_of Ex.mouse 8 1))
                    Ex.pan_field (usage Ex.pan_field) (-2) eq_refl)) eq_refl).
  - apply (proj2 (proj2 (hid_generic_event_scroll
                    (Ex.world_of Ex.mouse (Ex.dev_of Ex.mouse 8 1))
                    Ex.wheel_field (usage Ex.wheel_field) 3 eq_refl))).
    unfold C.is_s32. lia.
Defined.




(** ** Capability scanner *)

Lemma usage_in_collection_fields_true fields usage_id collection :
  usage_in_collection_fields fields usage_id collection = true ↔
  ∃ field, field ∈ fields ∧ hid (usage field) = usage_id ∧
           collection_index (usage field) = collection.
Proof.
  induction fields as [|f fields IH]; simpl.
  - split; [done|]. intros (f & Hf & _). by apply elem_of_nil in Hf.
  - destruct (Z.eqb_spec (hid (usage f)) usage_id) as [E1|N1];
      destruct (Z.eqb_spec (collection_index (usage f)) collection)
        as [E2|N2]; simpl.
    + split; [|done]. intros _. exists f. split; [left|done].
    + rewrite IH. split.
      * intros (g & Hg & ?). exists g. split; [by right|done].
      * intros (g & Hg & E & E'). apply elem_of_cons in Hg as [->|Hg];
          [done|by exists g].
    + rewrite IH. split.
      * intros (g & Hg & ?). exists g. split; [by right|done].
      * intros (g & Hg & E & E'). apply elem_of_cons in Hg as [->|Hg];
          [done|by exists g].
    + rewrite IH. split.
      * intros (g & Hg & ?). exists g. split; [by right|done].
      * intros (g & Hg & E & E'). apply elem_of_cons in Hg as [->|Hg];
          [done|by exists g].
Qed.

Lemma usage_in_collection_reports_true reps usage_id collection :
  usage_in_collection_reports reps usage_id collection = true ↔
  ∃ rep field, rep ∈ reps ∧ field ∈ rep_field rep ∧
               hid (usage field) = usage_id ∧
               collection_index (usage field) = collection.
Proof.
  induction reps as [|r reps IH]; simpl.
  - split; [done|]. intros (rep & f & Hr & _). by apply elem_of_nil in Hr.
  - destruct (usage_in_collection_fields (rep_field r) usage_id collection)
      eqn:E.
    + split; [|done]. intros _.
      apply usage_in_collection_fields_true in E as (f & Hf & ?).
      exists r, f. split; [left|done].
    + rewrite IH. split.
      * intros (rep & f & Hr & ?). exists rep, f. split; [by right|done].
      * intros (rep & f & Hr & Hf & H1 & H2).
        apply elem_of_cons in Hr as [->|Hr]; [|by exists rep, f].
        assert (usage_in_collection_fields (rep_field r) usage_id collection
                = true) as E'.
        { apply usage_in_collection_fields_true. by exists f. }
        congruence.
Qed.

(** C4 as stated fails: the wheel is the third usage of the only input
    field of this mouse, in collection 1, and the scanner answers false
    for the wheel usage in collection 1. *)
Lemma usage_in_collection_misses_later_usage :
  usage_in_collection Ex.plain_mouse HID_GD_WHEEL 1 = false ∧
  ∃ rep field u,
    rep ∈ report_enum Ex.plain_mouse HID_INPUT_REPORT ∧
    field ∈ rep_field rep ∧ u ∈ usages field ∧
    hid u = HID_GD_WHEEL ∧ collection_index u = 1.
Proof.
  split; [done|].
  exists {| rep_id := 1; rep_field := [Ex.pointer_field] |}, Ex.pointer_field,
    {| hid := HID_GD_WHEEL; collection_index := 1; usage_index := 2 |}.
  split; [by left|]. split; [by left|].
  split; [|done]. unfold usages. simpl. right. right. left.
Qed.

(** C4 (amended): the scanner answers true if and only if some field of
    some report of the input report set has, as its leading usage (the
    one [field->usage] points to), a usage with the given identifier and
    the given collection index. *)
Theorem usage_in_collection_leading hdev usage_id collection :
  usage_in_collection hdev usage_id collection = true ↔
  ∃ rep field,
    rep ∈ report_enum hdev HID_INPUT_REPORT ∧
    field ∈ rep_field rep ∧
    hid (usage field) = usage_id ∧
    collection_index (usage field) = collection.
Proof. apply usage_in_collection_reports_true. Qed.

(** ** Fallback matcher *)

Section MatcherProperties.

Context {hid_driver : Type} `{EqDecision hid_driver}.
Variable hid_generic : hid_driver.
Variable hid_match_device : hid_device → hid_driver → bool.

Lemma bus_for_each_drv_check drivers hdev :
  bus_for_each_drv drivers hdev
    (__check_hid_generic hid_generic hid_match_device) = 0 ↔
  ∀ drv, drv ∈ drivers → drv ≠ hid_generic → hid_match_device hdev drv = false.
Proof.
  induction drivers as [|d drivers IH]; simpl.
  - split; [|done]. intros _ drv H. by apply elem_of_nil in H.
  - assert (__check_hid_generic hid_generic hid_match_device d hdev = 0 ↔
            (d ≠ hid_generic → hid_match_device hdev d = false)) as Hd.
    { unfold __check_hid_generic.
      destruct (decide (d = hid_generic)) as [->|N]; [done|].
      destruct (hid_match_device hdev d); split; try done.
      intros H. by discriminate H. }
    destruct (Z.eqb_spec
      (__check_hid_generic hid_generic hid_match_device d hdev) 0) as [E|N].
    + rewrite IH. pose proof (proj1 Hd E) as E'. split.
      * intros H drv Hi. apply elem_of_cons in Hi as [->|Hi]; [done|by apply H].
      * intros H drv Hi. apply H. by right.
    + split; [done|]. intros H. contradict N. apply Hd, H. left.
Qed.

Lemma flagged_land hdev :
  flagged hdev ↔ Z.land (quirks hdev) HID_QUIRK_HAVE_SPECIAL_DRIVER ≠ 0.
Proof.
  unfold flagged, HID_QUIRK_HAVE_SPECIAL_DRIVER.
  change (Z.shiftl 1 19) with (2 ^ 19).
  rewrite Z.land_comm. split.
  - intros H E.
    assert (Z.testbit (Z.land (2 ^ 19) (quirks hdev)) 19 = false) as F
      by (rewrite E; apply Z.testbit_0_l).
    rewrite Z.land_spec, H, Z.pow2_bits_true in F by lia. done.
  - intros N. destruct (Z.testbit (quirks hdev) 19) eqn:E; [done|].
    contradict N. apply Z.bits_inj'. intros n Hn.
    rewrite Z.land_spec, Z.testbit_0_l.
    destruct (decide (n = 19)) as [->|Hne].
    + by rewrite E, andb_false_r.
    + by rewrite Z.pow2_bits_false by lia.
Qed.

(** C5: with the force flag the matcher accepts; without it a device
    flagged for a special driver is rejected, and any other device is
    accepted exactly when no registered driver other than hid-generic
    itself matches it. *)
Theorem hid_generic_match_fallback (drivers : list hid_driver) hdev :
  let accept := hid_generic_match hid_generic hid_match_device drivers hdev in
  accept true = true ∧
  (flagged hdev → accept false = false) ∧
  (¬ flagged hdev →
   (accept false = true ↔
    ∀ drv, drv ∈ drivers → drv ≠ hid_generic →
           hid_match_device hdev drv = false)).
Proof.
  intros accept. subst accept. unfold hid_generic_match.
  split; [done|]. split.
  - intros F. apply flagged_land in F.
    by destruct (Z.eqb_spec (Z.land (quirks hdev)
                               HID_QUIRK_HAVE_SPECIAL_DRIVER) 0).
  - intros F. rewrite flagged_land in F.
    destruct (Z.eqb_spec (Z.land (quirks hdev)
                            HID_QUIRK_HAVE_SPECIAL_DRIVER) 0) as [_|N];
      [|done]. simpl.
    rewrite <- bus_for_each_drv_check.
    by destruct (Z.eqb_spec (bus_for_each_drv drivers hdev
      (__check_hid_generic hid_generic hid_match_device)) 0).
Qed.

End MatcherProperties.

(** ** Multiplier activator *)

Lemma list_find_insert_same {A} (P : A → Prop) `{!∀ x, Decision (P x)}
    (l : list A) i y z j x :
  l !! i = Some z → (P y ↔ P z) →
  list_find P l = Some (j, x) →
  ∃ x', list_find P (<[i:=y]> l) = Some (j, x') ∧ <[i:=y]> l !! j = Some x'.
Proof.
  intros Hi Hyz (Hj & HP & Hleast)%list_find_Some.
  destruct (decide (i = j)) as [->|N].
  - exists y. assert (z = x) as -> by congruence.
    assert (<[j:=y]> l !! j = Some y) as Hy.
    { apply list_lookup_insert_eq. by eapply lookup_lt_Some. }
    split; [|done]. apply list_find_Some. split_and!; [done|by apply Hyz|].
    intros k y0 Hk Hlt. rewrite list_lookup_insert_ne in Hk by lia. eauto.
  - exists x. assert (<[i:=y]> l !! j = Some x) as Hx
      by by rewrite list_lookup_insert_ne.
    split; [|done]. apply list_find_Some. split_and!; [done..|].
    intros k y0 Hk Hlt. destruct (decide (i = k)) as [->|Nk].
    + rewrite list_lookup_insert_eq in Hk by by eapply lookup_lt_Some.
      injection Hk as <-. rewrite Hyz. eauto.
    + rewrite list_lookup_insert_ne in Hk by done. eauto.
Qed.

Lemma field_evolves_refl f : field_evolves f f.
Proof. by repeat split. Qed.

Lemma field_evolves_trans f1 f2 f3 :
  field_evolves f1 f2 → field_evolves f2 f3 → field_evolves f1 f3.
Proof.
  unfold field_evolves. intros (?&?&?&?&?&?&?) (?&?&?&?&?&?&?).
  split_and!; try congruence. auto.
Qed.

Lemma enum_evolves_refl e : enum_evolves e e.
Proof. intros id fi f H. exists f. split; [done|apply field_evolves_refl]. Qed.

Lemma enum_evolves_trans e1 e2 e3 :
  enum_evolves e1 e2 → enum_evolves e2 e3 → enum_evolves e1 e3.
Proof.
  intros H12 H23 id fi f H.
  destruct (H12 _ _ _ H) as (f2 & H2 & E2).
  destruct (H23 _ _ _ H2) as (f3 & H3 & E3).
  exists f3. split; [done|]. by eapply field_evolves_trans.
Qed.

Lemma hdev_evolves_refl h : hdev_evolves h h.
Proof. repeat split. apply enum_evolves_refl. Qed.

Lemma hdev_evolves_trans h1 h2 h3 :
  hdev_evolves h1 h2 → hdev_evolves h2 h3 → hdev_evolves h1 h3.
Proof.
  unfold hdev_evolves. intros (?&?&?&?&?) (?&?&?&?&?).
  split_and!; try congruence. by eapply enum_evolves_trans.
Qed.

Lemma writable_evolves f f' : field_evolves f f' → writable f → writable f'.
Proof. unfold writable. intros (-> & _ & _ & _ & _ & -> & _). done. Qed.

(** Writing the logical maximum into a field. *)
Lemma set_value_evolves f :
  writable f →
  let f' := set_value (<[Z.to_nat (usage_index (usage f)) :=
                          logical_maximum f]> (value f)) f in
  field_evolves f f' ∧ at_maximum f'.
Proof.
  intros W f'. assert (at_maximum f') as Hmax.
  { unfold at_maximum, f'. simpl. by apply list_lookup_insert_eq. }
  unfold field_evolves, f'. simpl. split_and!; try done.
  by rewrite length_insert.
Qed.

(** The store after one field of one report has been written. *)
Lemma enum_insert_evolves e id fi ri rep f :
  report_id_hash e id = Some (ri, rep) →
  rep_field rep !! Z.to_nat fi = Some f →
  writable f →
  let f' := set_value (<[Z.to_nat (usage_index (usage f)) :=
                          logical_maximum f]> (value f)) f in
  let e' := <[ri := set_rep_field (<[Z.to_nat fi := f']> (rep_field rep)) rep]> e in
  enum_evolves e e' ∧ slot_field e' id fi = Some f'.
Proof.
  intros Hhash Hf W f' e'.
  destruct (set_value_evolves f W) as [Hev Hmax]. fold f' in Hev, Hmax.
  set (rep' := set_rep_field (<[Z.to_nat fi := f']> (rep_field rep)) rep).
  assert (e !! ri = Some rep) as Hri.
  { unfold report_id_hash in Hhash. case_decide; [|done].
    by apply list_find_Some in Hhash as (? & _). }
  assert (∀ id2 fi2 f2, slot_field e id2 fi2 = Some f2 →
            ∃ f2', slot_field e' id2 fi2 = Some f2' ∧ field_evolves f2 f2' ∧
                   (id2 = id → fi2 = fi → f2' = f')) as Hall.
  { intros id2 fi2 f2 Hf2. unfold slot_field, report_id_hash in Hf2.
    destruct (decide (0 <= id2 < HID_MAX_IDS)) as [Hrange|]; [|done].
    destruct (list_find (λ r, rep_id r = id2) e) as [[rj r]|] eqn:Hfind;
      [|done]. simpl in Hf2.
    destruct (list_find_insert_same (λ r, rep_id r = id2) e ri rep' rep rj r)
      as (r' & Hfind' & Hr'); [done|done|done|].
    assert (∀ g, slot_field e' id2 fi2 = g ↔ rep_field r' !! Z.to_nat fi2 = g)
      as Hslot.
    { intros g. unfold slot_field, report_id_hash, e'. fold rep'.
      rewrite decide_True by done. by rewrite Hfind'. }
    unfold e' in Hr'. fold rep' in Hr'.
    destruct (decide (ri = rj)) as [->|Nr].
    - rewrite list_lookup_insert_eq in Hr' by by eapply lookup_lt_Some.
      injection Hr' as <-.
      assert (r = rep) as ->
        by (apply list_find_Some in Hfind as (? & _); congruence).
      destruct (decide (Z.to_nat fi = Z.to_nat fi2)) as [Efi|Nfi].
      + exists f'. rewrite Hslot. simpl. rewrite <- Efi. rewrite <- Efi in Hf2.
        rewrite list_lookup_insert_eq by by eapply lookup_lt_Some.
        assert (f2 = f) as -> by congruence. done.
      + exists f2. rewrite Hslot. simpl.
        rewrite list_lookup_insert_ne by done.
        split; [done|]. split; [apply field_evolves_refl|].
        intros _ ->. done.
    - rewrite list_lookup_insert_ne in Hr' by done.
      assert (r' = r) as -> by (apply list_find_Some in Hfind as (? & _);
                                 congruence).
      exists f2. rewrite Hslot. split; [done|].
      split; [apply field_evolves_refl|].
      intros -> _. unfold report_id_hash in Hhash.
      rewrite decide_True in Hhash by done. congruence. }
  split.
  - intros id2 fi2 f2 H2. destruct (Hall _ _ _ H2) as (f2' & ? & ? & _).
    by exists f2'.
  - assert (slot_field e id fi = Some f) as Hs.
    { unfold slot_field. by rewrite Hhash. }
    destruct (Hall _ _ _ Hs) as (f2' & Hs' & _ & Heq).
    by rewrite Hs', Heq.
Qed.

Lemma report_id_hash_id e id ri rep :
  report_id_hash e id = Some (ri, rep) → rep_id rep = id.
Proof.
  unfold report_id_hash. case_decide; [|done].
  by intros (_ & ? & _)%list_find_Some.
Qed.

(** One turn of the loop on a slot that designates a writable field. *)
Lemma slot_step w i f :
  field_of_slot w i = Some f → writable f →
  ∃ h',
    set_resolution_multiplier_slot i w =
      Some (tt, {| the_hdev := h'; drvdata := drvdata w;
                   calls := calls w ++ [request (drvdata w) i] |}) ∧
    hdev_evolves (the_hdev w) h' ∧
    ∃ f', field_of_slot {| the_hdev := h'; drvdata := drvdata w;
                           calls := calls w ++ [request (drvdata w) i] |} i
            = Some f' ∧
          at_maximum f' ∧ field_evolves f f'.
Proof.
  intros Hf W. unfold field_of_slot, slot_field in Hf. simpl in Hf.
  destruct (report_id_hash (feature_enum (the_hdev w))
              (at2 (report_id (drvdata w)) i)) as [[ri rep]|] eqn:Hhash;
    [|done].
  simpl in Hf.
  destruct (enum_insert_evolves _ _ _ _ _ _ Hhash Hf W) as [Hev Hslot].
  destruct (set_value_evolves f W) as [Hfev Hmax].
  pose proof (report_id_hash_id _ _ _ _ Hhash) as Hid.
  eexists. split; [|split].
  - unfold set_resolution_multiplier_slot. run. rewrite Hhash. simpl.
    rewrite Hf. simpl. rewrite decide_True by done.
    unfold request. rewrite Hid. reflexivity.
  - by repeat split.
  - eexists. split; [exact Hslot|]. done.
Qed.

(** A turn of the loop that does not fault leaves the driver data alone
    and logs the request of its slot. *)
Lemma slot_step_inv w i w' :
  set_resolution_multiplier_slot i w = Some (tt, w') →
  drvdata w' = drvdata w ∧ calls w' = calls w ++ [request (drvdata w) i] ∧
  hdev_evolves (the_hdev w) (the_hdev w').
Proof.
  intros H.
  destruct (field_of_slot w i) as [f|] eqn:Hf.
  - destruct (decide (writable f)) as [W|NW].
    + destruct (slot_step w i f Hf W) as (h' & Hrun & Hev & _).
      rewrite Hrun in H. by simplify_eq.
    + exfalso. unfold field_of_slot, slot_field in Hf. simpl in Hf.
      unfold set_resolution_multiplier_slot in H. run.
      destruct (report_id_hash _ _) as [[ri rep]|]; [|done]. simpl in *.
      rewrite Hf in H. by rewrite decide_False in H.
  - exfalso. unfold field_of_slot, slot_field in Hf. simpl in Hf.
    unfold set_resolution_multiplier_slot in H. run.
    destruct (report_id_hash _ _) as [[ri rep]|]; [|done]. simpl in *.
    by rewrite Hf in H.
Qed.

Lemma field_of_slot_evolves w w' i f :
  drvdata w' = drvdata w →
  hdev_evolves (the_hdev w) (the_hdev w') →
  field_of_slot w i = Some f →
  ∃ f', field_of_slot w' i = Some f' ∧ field_evolves f f'.
Proof.
  intros Hd (_ & _ & _ & _ & Hev) Hf. unfold field_of_slot in *.
  rewrite Hd. simpl in *. by apply Hev.
Qed.

(** The loop over slots that all designate writable fields. *)
Lemma set_resolution_multiplier_loop_spec slots w :
  (∀ i, i ∈ visited (drvdata w) slots →
        ∃ f, field_of_slot w i = Some f ∧ writable f) →
  ∃ w',
    set_resolution_multiplier_loop slots w = Some (tt, w') ∧
    drvdata w' = drvdata w ∧
    calls w' = calls w ++ (request (drvdata w) <$> visited (drvdata w) slots) ∧
    hdev_evolves (the_hdev w) (the_hdev w') ∧
    ∀ i f, i ∈ visited (drvdata w) slots → field_of_slot w i = Some f →
           ∃ f', field_of_slot w' i = Some f' ∧ at_maximum f' ∧
                 field_evolves f f'.
Proof.
  revert w. induction slots as [|i slots IH]; intros w Hres; simpl.
  - exists w. split; [done|]. split; [done|]. rewrite app_nil_r.
    split; [done|]. split; [apply hdev_evolves_refl|].
    intros i f Hi. by apply elem_of_nil in Hi.
  - simpl in Hres. unfold bind at 1, hid_get_drvdata at 1.
    unfold occupied in *.
    destruct (Z.eqb_spec (at2 (report_id (drvdata w)) i) C.UINT_MAX) as [E|N].
    + rewrite decide_False by (intros H; by apply H).
      exists w. unfold ret. split; [done|]. split; [done|].
      simpl. rewrite app_nil_r. split; [done|].
      split; [apply hdev_evolves_refl|].
      intros j f Hj. by apply elem_of_nil in Hj.
    + rewrite decide_True in Hres by done. rewrite decide_True by done.
      destruct (Hres i) as (f & Hf & W); [left|].
      destruct (slot_step w i f Hf W) as (h1 & Hrun & Hev1 & f1 & Hf1 & Hmax1 & Hfe1).
      set (w1 := {| the_hdev := h1; drvdata := drvdata w;
                    calls := calls w ++ [request (drvdata w) i] |}) in *.
      destruct (IH w1) as (w' & Hloop & Hd & Hc & Hev & Hset).
      { intros j Hj. simpl in Hj. destruct (Hres j) as (g & Hg & Wg); [by right|].
        destruct (field_of_slot_evolves w w1 j g) as (g' & Hg' & Hge);
          [done|done|done|].
        exists g'. split; [done|]. by eapply writable_evolves. }
      exists w'. split; [by rewrite (bind_Some _ _ _ _ _ Hrun)|].
      simpl in Hd, Hc. split; [done|].
      split; [by rewrite Hc, <- app_assoc|].
      split; [by eapply hdev_evolves_trans|].
      intros j g Hj Hg.
      destruct (field_of_slot_evolves w w1 j g) as (g' & Hg' & Hge);
        [done|done|done|].
      apply elem_of_cons in Hj as [->|Hj].
      * assert (g' = f1) as -> by congruence.
        destruct (field_of_slot_evolves w1 w' i f1) as (g2 & Hg2 & Hge2);
          [done|done|done|].
        exists g2. split; [done|]. split.
        -- by apply Hge2.
        -- by eapply field_evolves_trans.
      * destruct (Hset j g' Hj Hg') as (g2 & Hg2 & Hmax2 & Hge2).
        exists g2. split; [done|]. split; [done|].
        by eapply field_evolves_trans.
Qed.

(** A run of the loop that does not fault. *)
Lemma set_resolution_multiplier_loop_inv slots w w' :
  set_resolution_multiplier_loop slots w = Some (tt, w') →
  drvdata w' = drvdata w ∧
  calls w' = calls w ++ (request (drvdata w) <$> visited (drvdata w) slots) ∧
  hdev_evolves (the_hdev w) (the_hdev w').
Proof.
  revert w. induction slots as [|i slots IH]; intros w H; simpl in *.
  - unfold ret in H. simplify_eq. rewrite app_nil_r.
    split; [done|]. split; [done|]. apply hdev_evolves_refl.
  - unfold bind at 1, hid_get_drvdata at 1 in H. unfold occupied.
    destruct (Z.eqb_spec (at2 (report_id (drvdata w)) i) C.UINT_MAX) as [E|N].
    + rewrite decide_False by (intros H'; by apply H').
      unfold ret in H. simplify_eq. simpl. rewrite app_nil_r.
      split; [done|]. split; [done|]. apply hdev_evolves_refl.
    + rewrite decide_True by done.
      apply bind_inv in H as ([] & w1 & Hstep & Hrest).
      apply slot_step_inv in Hstep as (Hd1 & Hc1 & Hev1).
      apply IH in Hrest as (Hd & Hc & Hev). rewrite Hd1 in Hd, Hc.
      split; [done|]. split.
      * rewrite Hc, Hc1. simpl. by rewrite <- app_assoc.
      * by eapply hdev_evolves_trans.
Qed.

Lemma visited_occupied dev slots i : i ∈ visited dev slots → occupied dev i.
Proof.
  induction slots as [|j slots IH]; simpl; [by intros ?%elem_of_nil|].
  case_decide; [|by intros ?%elem_of_nil].
  intros [->|?]%elem_of_cons; auto.
Qed.

Lemma visited_elem_of dev slots i : i ∈ visited dev slots → i ∈ slots.
Proof.
  induction slots as [|j slots IH]; simpl; [done|].
  case_decide; [|by intros ?%elem_of_nil].
  intros [->|?]%elem_of_cons; [left|right; auto].
Qed.

Lemma visited_occupied_slots dev i :
  i ∈ visited dev [0; 1]%nat → i ∈ occupied_slots dev.
Proof.
  intros H. apply list_elem_of_filter. split.
  - by eapply visited_occupied.
  - by eapply visited_elem_of.
Qed.

(** Under the prefix order the loop reaches every slot in use. *)
Lemma visited_prefix dev :
  slot_prefix dev → visited dev [0; 1]%nat = occupied_slots dev.
Proof.
  unfold slot_prefix, occupied_slots. intros Hp. simpl.
  destruct (decide (occupied dev 0)) as [O0|N0].
  - by rewrite filter_cons_True by done.
  - rewrite filter_cons_False by done.
    rewrite filter_cons_False by (intros O1; by apply N0, Hp). done.
Qed.

Lemma occupied_slots_length dev : (length (occupied_slots dev) ≤ 2)%nat.
Proof. unfold occupied_slots. apply (length_filter _ [0; 1]%nat). Qed.

Lemma hid_generic_set_resolution_multiplier_noop w :
  wheel_multiplier (drvdata w) = 1 → hwheel_multiplier (drvdata w) = 1 →
  hid_generic_set_resolution_multiplier w = Some (tt, w).
Proof.
  intros H1 H2. unfold hid_generic_set_resolution_multiplier. run.
  by rewrite H1, H2.
Qed.

(** The activator on slots that designate writable fields. *)
Lemma hid_generic_set_resolution_multiplier_run w :
  slots_resolve w →
  ∃ w',
    hid_generic_set_resolution_multiplier w = Some (tt, w') ∧
    drvdata w' = drvdata w ∧
    calls w' = calls w ++ activation_requests (drvdata w) ∧
    hdev_evolves (the_hdev w) (the_hdev w') ∧
    (¬ (wheel_multiplier (drvdata w) = 1 ∧ hwheel_multiplier (drvdata w) = 1) →
     ∀ i f, i ∈ visited (drvdata w) [0; 1]%nat → field_of_slot w i = Some f →
            ∃ f', field_of_slot w' i = Some f' ∧ at_maximum f' ∧
                  field_evolves f f').
Proof.
  intros Hres.
  unfold hid_generic_set_resolution_multiplier, activation_requests.
  unfold bind at 1, hid_get_drvdata at 1.
  destruct (Z.eqb_spec (wheel_multiplier (drvdata w)) 1) as [E1|N1];
    destruct (Z.eqb_spec (hwheel_multiplier (drvdata w)) 1) as [E2|N2]; simpl.
  1: { exists w. unfold ret. rewrite app_nil_r.
       split_and!; [done..|apply hdev_evolves_refl|]. intros []. done. }
  all: destruct (set_resolution_multiplier_loop_spec [0; 1]%nat w)
         as (w' & Hrun & Hd & Hc & Hev & Hset);
       [intros i Hi; by apply Hres, visited_occupied_slots|];
       exists w'; split_and!; [done..|]; intros _; exact Hset.
Qed.

(** A run of the activator that does not fault. *)
Lemma hid_generic_set_resolution_multiplier_inv w w' :
  hid_generic_set_resolution_multiplier w = Some (tt, w') →
  drvdata w' = drvdata w ∧
  calls w' = calls w ++ activation_requests (drvdata w) ∧
  hdev_evolves (the_hdev w) (the_hdev w').
Proof.
  unfold hid_generic_set_resolution_multiplier, activation_requests.
  unfold bind at 1, hid_get_drvdata at 1.
  destruct ((wheel_multiplier (drvdata w) =? 1) &&
            (hwheel_multiplier (drvdata w) =? 1)).
  - unfold ret. intros ?. simplify_eq. rewrite app_nil_r.
    split_and!; [done..|apply hdev_evolves_refl].
  - apply set_resolution_multiplier_loop_inv.
Qed.

(** Once the fields of the slots are at their maximum, a further turn
    of the loop changes nothing but the log. *)
Lemma slot_step_fixed w i f :
  field_of_slot w i = Some f → at_maximum f →
  set_resolution_multiplier_slot i w = Some (tt, log w [request (drvdata w) i]).
Proof.
  intros Hf Hmax. assert (writable f) as W.
  { unfold writable. by eapply lookup_lt_Some. }
  unfold field_of_slot, slot_field in Hf. simpl in Hf.
  destruct (report_id_hash (feature_enum (the_hdev w))
              (at2 (report_id (drvdata w)) i)) as [[ri rep]|] eqn:Hhash;
    [|done].
  simpl in Hf.
  pose proof (report_id_hash_id _ _ _ _ Hhash) as Hid.
  assert (feature_enum (the_hdev w) !! ri = Some rep) as Hri.
  { unfold report_id_hash in Hhash. case_decide; [|done].
    by apply list_find_Some in Hhash as (? & _). }
  unfold set_resolution_multiplier_slot. run. rewrite Hhash. simpl.
  rewrite Hf. simpl. rewrite decide_True by done.
  unfold at_maximum in Hmax. rewrite (list_insert_id (value f)) by done.
  replace (set_value (value f) f) with f by by destruct f.
  rewrite (list_insert_id (rep_field rep)) by done.
  replace (set_rep_field (rep_field rep) rep) with rep by by destruct rep.
  rewrite (list_insert_id (feature_enum (the_hdev w))) by done.
  replace (set_feature_enum (feature_enum (the_hdev w)) (the_hdev w))
    with (the_hdev w) by by destruct (the_hdev w).
  unfold log, request. by rewrite Hid.
Qed.

Lemma set_resolution_multiplier_loop_fixed slots w :
  (∀ i, i ∈ visited (drvdata w) slots →
        ∃ f, field_of_slot w i = Some f ∧ at_maximum f) →
  set_resolution_multiplier_loop slots w =
    Some (tt, log w (request (drvdata w) <$> visited (drvdata w) slots)).
Proof.
  revert w. induction slots as [|i slots IH]; intros w Hmax; simpl.
  - by rewrite log_nil.
  - simpl in Hmax. unfold bind at 1, hid_get_drvdata at 1. unfold occupied in *.
    destruct (Z.eqb_spec (at2 (report_id (drvdata w)) i) C.UINT_MAX) as [E|N].
    + rewrite decide_False by (intros H; by apply H). simpl.
      by rewrite log_nil.
    + rewrite decide_True in Hmax by done. rewrite decide_True by done.
      destruct (Hmax i) as (f & Hf & Hm); [left|].
      rewrite (bind_Some _ _ _ _ _ (slot_step_fixed w i f Hf Hm)).
      rewrite IH.
      * unfold log. simpl. by rewrite <- app_assoc.
      * intros j Hj. simpl in Hj. apply (Hmax j). by right.
Qed.

(** Settles [slots_resolve] on a given world, slot by slot. *)
Ltac resolve_slots :=
  let i := fresh "i" in
  let Hi := fresh "Hi" in
  intros i Hi; vm_compute in Hi;
  repeat (apply elem_of_cons in Hi as [->|Hi];
          [eexists; split; [vm_compute; reflexivity|unfold writable; simpl; lia]|]);
  by apply elem_of_nil in Hi.

(** C2: with both multipliers at 1 the activator does nothing.
    Otherwise, on driver data whose slots are filled in order and
    designate fields of the feature reports, it writes into the field
    of every slot in use the logical maximum of that field, and logs
    one SET_REPORT request for the report of each such slot, two at
    most, in the order of the slots. *)
Theorem hid_generic_set_resolution_multiplier_spec w :
  let dev := drvdata w in
  (wheel_multiplier dev = 1 → hwheel_multiplier dev = 1 →
   hid_generic_set_resolution_multiplier w = Some (tt, w)) ∧
  (¬ (wheel_multiplier dev = 1 ∧ hwheel_multiplier dev = 1) →
   slot_prefix dev → slots_resolve w →
   ∃ w',
     hid_generic_set_resolution_multiplier w = Some (tt, w') ∧
     drvdata w' = dev ∧
     calls w' = calls w ++ (request dev <$> occupied_slots dev) ∧
     (length (request dev <$> occupied_slots dev) ≤ 2)%nat ∧
     ∀ i f, i ∈ occupied_slots dev → field_of_slot w i = Some f →
            ∃ f', field_of_slot w' i = Some f' ∧
                  value f' !! Z.to_nat (usage_index (usage f')) =
                    Some (logical_maximum f) ∧
                  field_evolves f f').
Proof.
  intros dev. split; [apply hid_generic_set_resolution_multiplier_noop|].
  intros Hnot Hp Hres.
  destruct (hid_generic_set_resolution_multiplier_run w Hres)
    as (w' & Hrun & Hd & Hc & Hev & Hset).
  exists w'. split; [done|]. split; [done|].
  assert (activation_requests dev = request dev <$> occupied_slots dev) as Hreq.
  { unfold activation_requests. rewrite visited_prefix by done.
    destruct (Z.eqb_spec (wheel_multiplier dev) 1);
      destruct (Z.eqb_spec (hwheel_multiplier dev) 1); simpl; try done.
    by destruct Hnot. }
  split; [by rewrite Hc, <- Hreq|].
  split; [rewrite length_fmap; apply occupied_slots_length|].
  intros i f Hi Hf. rewrite <- visited_prefix in Hi by done.
  destruct (Hset Hnot i f Hi Hf) as (f' & Hf' & Hmax & Hfe).
  exists f'. split; [done|]. split; [|done].
  unfold at_maximum in Hmax. rewrite Hmax. f_equal. apply Hfe.
Qed.

Lemma hid_generic_set_resolution_multiplier_spec_witness :
  (let w := Ex.world_of Ex.mouse (Ex.dev_of Ex.mouse 1 1) in
   hid_generic_set_resolution_multiplier w = Some (tt, w)) ∧
  ∃ w',
    hid_generic_set_resolution_multiplier Ex_attached = Some (tt, w') ∧
    drvdata w' = drvdata Ex_attached ∧
    calls w' = [ hid_hw_request HID_FEATURE_REPORT 2 HID_REQ_SET_REPORT;
                 hid_hw_request HID_FEATURE_REPORT 2 HID_REQ_SET_REPORT ].
Proof.
  split.
  - exact (proj1 (hid_generic_set_resolution_multiplier_spec
                    (Ex.world_of Ex.mouse (Ex.dev_of Ex.mouse 1 1)))
             eq_refl eq_refl).
  - destruct (proj2 (hid_generic_set_resolution_multiplier_spec Ex_attached))
      as (w' & Hrun & Hd & Hc & _).
    + simpl. intros [H _]. discriminate H.
    + intros _. vm_compute. discriminate.
    + resolve_slots.
    + exists w'. split; [exact Hrun|]. split; [exact Hd|exact Hc].
Defined.

(** C7: on driver data whose slots designate fields of the feature
    reports, two activations in a row both run to their end, log the
    same requests, and leave the driver data as it was; the second
    leaves the reports as the first left them.  The event translator
    returns with the driver data as it found it. *)
Theorem hid_generic_set_resolution_multiplier_idempotent w :
  (slots_resolve w →
   ∃ w1 w2 reqs,
     hid_generic_set_resolution_multiplier w = Some (tt, w1) ∧
     hid_generic_set_resolution_multiplier w1 = Some (tt, w2) ∧
     calls w1 = calls w ++ reqs ∧
     calls w2 = calls w1 ++ reqs ∧
     drvdata w1 = drvdata w ∧
     drvdata w2 = drvdata w ∧
     the_hdev w2 = the_hdev w1) ∧
  (∀ field usage' v,
   ∃ r w', hid_generic_event field usage' v w = Some (r, w') ∧
           drvdata w' = drvdata w).
Proof.
  split.
  - intros Hres.
    destruct (hid_generic_set_resolution_multiplier_run w Hres)
      as (w1 & Hrun & Hd & Hc & Hev & Hset).
    exists w1, (log w1 (activation_requests (drvdata w))),
      (activation_requests (drvdata w)).
    split; [done|]. split; [|done].
    unfold hid_generic_set_resolution_multiplier, activation_requests.
    unfold bind at 1, hid_get_drvdata at 1. rewrite Hd.
    destruct (Z.eqb_spec (wheel_multiplier (drvdata w)) 1) as [E1|N1];
      destruct (Z.eqb_spec (hwheel_multiplier (drvdata w)) 1) as [E2|N2];
      cbn [andb].
    1: { unfold ret. by rewrite log_nil. }
    all: rewrite set_resolution_multiplier_loop_fixed, Hd; [done|];
      intros i Hi; rewrite Hd in Hi;
      destruct (Hres i (visited_occupied_slots _ _ Hi)) as (f & Hf & W);
      destruct (Hset ltac:(intros []; done) i f Hi Hf) as (f' & Hf' & Hmax & _);
      by exists f'.
  - intros field usage' v.
    destruct (hid_generic_event_drvdata w field usage' v) as (w' & H & Hd & _).
    by exists 1, w'.
Qed.

Lemma hid_generic_set_resolution_multiplier_idempotent_witness :
  ∃ w1 w2 reqs,
    hid_generic_set_resolution_multiplier Ex_attached = Some (tt, w1) ∧
    hid_generic_set_resolution_multiplier w1 = Some (tt, w2) ∧
    calls w1 = calls Ex_attached ++ reqs ∧
    calls w2 = calls w1 ++ reqs ∧
    drvdata w1 = drvdata Ex_attached ∧
    drvdata w2 = drvdata Ex_attached ∧
    the_hdev w2 = the_hdev w1.
Proof.
  apply (proj1 (hid_generic_set_resolution_multiplier_idempotent Ex_attached)).
  resolve_slots.
Defined.

(** A bus with three drivers, numbered; hid-generic is 0 and driver 2
    matches the devices whose address is odd. *)
Lemma hid_generic_match_fallback_witness :
  let matches := λ (h : hid_device) (drv : nat),
    bool_decide (drv = 2%nat) && Z.odd (hdev_addr h) in
  hid_generic_match 0%nat matches [0; 1; 2]%nat
    (set_quirks HID_QUIRK_HAVE_SPECIAL_DRIVER Ex.mouse) false = false ∧
  (hid_generic_match 0%nat matches [0; 1; 2]%nat Ex.mouse false = true ↔
   ∀ drv, drv ∈ [0; 1; 2]%nat → drv ≠ 0%nat → matches Ex.mouse drv = false).
Proof.
  intros matches. split.
  - apply (proj1 (proj2 (hid_generic_match_fallback 0%nat matches
             [0; 1; 2]%nat
             (set_quirks HID_QUIRK_HAVE_SPECIAL_DRIVER Ex.mouse)))).
    reflexivity.
  - apply (proj2 (proj2 (hid_generic_match_fallback 0%nat matches
             [0; 1; 2]%nat Ex.mouse))).
    unfold flagged. simpl. discriminate.
Defined.

(** ** Multiplier discovery *)

Lemma handle_resolution_multiplier_step rep field w :
  handle_resolution_multiplier rep field (usage field) w =
    Some (tt, {| the_hdev := the_hdev w;
                 drvdata := (assign_slot (the_hdev w) (rep, field) (drvdata w)).1;
                 calls := calls w ++
                   (assign_slot (the_hdev w) (rep, field) (drvdata w)).2 |}).
Proof.
  unfold handle_resolution_multiplier, assign_slot, qualifies. run.
  destruct (usage_in_collection (the_hdev w) HID_GD_WHEEL _),
    (usage_in_collection (the_hdev w) HID_CP_AC_PAN _); simpl;
    repeat (match goal with |- context [Z.eqb ?a ?b] => destruct (Z.eqb a b) end;
            simpl);
    rewrite ?app_nil_r; try reflexivity.
  by destruct w.
Qed.

Lemma fetch_fields_step rep fields w :
  fetch_fields rep fields w =
    Some (tt,
      let r := assign_slots (the_hdev w)
                 ((λ f, (rep, f)) <$>
                  filter (λ f, hid (usage f) = HID_GD_RESOLUTION_MULTIPLIER)
                         fields) (drvdata w) in
      {| the_hdev := the_hdev w; drvdata := r.1; calls := calls w ++ r.2 |}).
Proof.
  revert w. induction fields as [|f fields IH]; intros w.
  - simpl. unfold ret. by rewrite app_nil_r, world_eta.
  - cbn [fetch_fields]. rewrite filter_cons.
    destruct (Z.eqb_spec (hid (usage f)) HID_GD_RESOLUTION_MULTIPLIER) as [E|N].
    + rewrite decide_True by done.
      rewrite (bind_Some _ _ _ _ _ (handle_resolution_multiplier_step rep f w)).
      rewrite IH. simpl. by rewrite app_assoc.
    + rewrite decide_False by done. unfold bind at 1, ret at 1. apply IH.
Qed.

Lemma assign_slots_app hdev l1 l2 dev :
  assign_slots hdev (l1 ++ l2) dev =
    let r1 := assign_slots hdev l1 dev in
    let r2 := assign_slots hdev l2 r1.1 in
    (r2.1, r1.2 ++ r2.2).
Proof.
  revert dev. induction l1 as [|p l1 IH]; intros dev; simpl.
  - by destruct (assign_slots hdev l2 dev).
  - rewrite IH. simpl. by rewrite app_assoc.
Qed.

Lemma fetch_reports_step reps w :
  fetch_reports reps w =
    Some (tt,
      let r := assign_slots (the_hdev w) (rm_fields reps) (drvdata w) in
      {| the_hdev := the_hdev w; drvdata := r.1; calls := calls w ++ r.2 |}).
Proof.
  revert w. induction reps as [|rep reps IH]; intros w.
  - simpl. unfold ret. by rewrite app_nil_r, world_eta.
  - cbn [fetch_reports rm_fields flat_map].
    rewrite (bind_Some _ _ _ _ _ (fetch_fields_step rep (rep_field rep) w)).
    rewrite IH. cbn zeta. rewrite assign_slots_app. simpl.
    by rewrite app_assoc.
Qed.

(** Discovery always returns: it leaves the device alone, puts
    [discovered] in the driver data and logs the errors it met. *)
Lemma hid_generic_fetch_resolution_multiplier_step w :
  hid_generic_fetch_resolution_multiplier w =
    Some (tt, {| the_hdev := the_hdev w;
                 drvdata := (discovered (the_hdev w) (drvdata w)).1;
                 calls := calls w ++ (discovered (the_hdev w) (drvdata w)).2 |}).
Proof.
  unfold hid_generic_fetch_resolution_multiplier.
  unfold bind, get_hdev. apply fetch_reports_step.
Qed.

Lemma rm_fields_elem e rep f :
  (rep, f) ∈ rm_fields e →
  rep ∈ e ∧ f ∈ rep_field rep ∧ hid (usage f) = HID_GD_RESOLUTION_MULTIPLIER.
Proof.
  induction e as [|r e IH]; simpl; [by intros ?%elem_of_nil|].
  intros [H|H]%elem_of_app.
  - apply list_elem_of_fmap in H as (g & Heq & Hg). simplify_eq.
    apply list_elem_of_filter in Hg as [? ?]. split; [left|done].
  - destruct (IH H) as (? & ? & ?). split; [by right|done].
Qed.

(** In a well-formed report set a field is found again through the id
    of its report and its own index. *)
Lemma slot_field_wf e rep f :
  wf_enum e → rep ∈ e → f ∈ rep_field rep →
  slot_field e (rep_id rep) (index f) = Some f ∧ writable f.
Proof.
  intros (Hids & Hnd & Hfields) Hrep Hf.
  apply list_elem_of_lookup in Hrep as [ri Hri].
  apply list_elem_of_lookup in Hf as [k Hk].
  destruct (Hfields rep k f) as [Hidx W];
    [by eapply list_elem_of_lookup_2|done|].
  split; [|done].
  assert (list_find (λ r, rep_id r = rep_id rep) e = Some (ri, rep)) as Hfind.
  { apply list_find_Some. split_and!; [done..|].
    intros j y Hj Hlt Heq.
    assert (j = ri); [|lia].
    apply (NoDup_lookup (rep_id <$> e) j ri (rep_id rep)); [done|..].
    - by rewrite list_lookup_fmap, Hj, <- Heq.
    - by rewrite list_lookup_fmap, Hri. }
  unfold slot_field, report_id_hash.
  rewrite decide_True by (apply Hids; by eapply list_elem_of_lookup_2).
  rewrite Hfind. simpl. by rewrite Hidx, Nat2Z.id.
Qed.

(** The outcomes of one call of [handle_resolution_multiplier]. *)
Lemma assign_slot_cases h rep field dev :
  let r := assign_slot h (rep, field) dev in
  hdev r.1 = hdev dev ∧ device r.1 = device dev ∧
  ((qualifies h field = false ∧ r = (dev, [])) ∨
   (qualifies h field = true ∧
    ((¬ occupied dev 0 ∧
      report_id r.1 = (rep_id rep, (report_id dev).2) ∧
      field_index r.1 = (index field, (field_index dev).2) ∧ r.2 = []) ∨
     (occupied dev 0 ∧ ¬ occupied dev 1 ∧
      report_id r.1 = ((report_id dev).1, rep_id rep) ∧
      field_index r.1 = ((field_index dev).1, index field) ∧ r.2 = []) ∨
     (occupied dev 0 ∧ occupied dev 1 ∧
      report_id r.1 = report_id dev ∧ field_index r.1 = field_index dev ∧
      wheel_multiplier r.1 = 1 ∧ hwheel_multiplier r.1 = 1 ∧
      r.2 = [hid_err "invalid Resolution Multipliers"])))).
Proof.
  unfold assign_slot, occupied.
  destruct (qualifies h field); simpl; [|by auto].
  destruct (usage_in_collection h HID_GD_WHEEL _),
    (usage_in_collection h HID_CP_AC_PAN _); simpl;
    (destruct (Z.eqb_spec (report_id dev).1 C.UINT_MAX) as [E0|N0]; simpl;
     [|destruct (Z.eqb_spec (report_id dev).2 C.UINT_MAX) as [E1|N1]; simpl]);
    (split; [done|]); (split; [done|]); right; (split; [done|]).
  all: first [ left; split; [by intros H; apply H|done]
             | right; left; split; [done|split; [by intros H; apply H|done]]
             | right; right; done ].
Qed.

Lemma assign_slot_prefix hdev p dev :
  slot_prefix dev → slot_prefix (assign_slot hdev p dev).1.
Proof.
  destruct p as [rep field]. intros Hp.
  destruct (assign_slot_cases hdev rep field dev) as (_ & _ & H).
  destruct H as [[_ ->]|[_ [H|[H|H]]]]; [done|..].
  - destruct H as (N0 & Hr & _). unfold slot_prefix, occupied in *.
    rewrite Hr. simpl. intros O1. by destruct N0; apply Hp.
  - destruct H as (O0 & _ & Hr & _). unfold slot_prefix, occupied in *.
    by rewrite Hr.
  - destruct H as (O0 & _ & Hr & _). unfold slot_prefix, occupied in *.
    by rewrite Hr.
Qed.

Lemma assign_slots_prefix hdev l dev :
  slot_prefix dev → slot_prefix (assign_slots hdev l dev).1.
Proof.
  revert dev. induction l as [|p l IH]; intros dev Hp; simpl; [done|].
  by apply IH, assign_slot_prefix.
Qed.

Lemma assign_slot_resolves hdev e rep field dev :
  wf_enum e → (rep, field) ∈ rm_fields e →
  resolves_in e dev → resolves_in e (assign_slot hdev (rep, field) dev).1.
Proof.
  intros Hwf Hin Hres.
  apply rm_fields_elem in Hin as (Hrep & Hf & _).
  destruct (slot_field_wf e rep field Hwf Hrep Hf) as [Hslot W].
  destruct (assign_slot_cases hdev rep field dev) as (_ & _ & H).
  destruct H as [[_ ->]|[_ [H|[H|H]]]]; [done|..].
  - destruct H as (N0 & Hr & Hfi & _). intros i Hi.
    apply list_elem_of_filter in Hi as [Hocc Hi]. unfold occupied in Hocc.
    rewrite Hr, Hfi in *.
    apply elem_of_cons in Hi as [->|Hi]; simpl in *; [by exists field|].
    apply elem_of_cons in Hi as [->|Hi]; [|by apply elem_of_nil in Hi].
    simpl in *. apply (Hres 1%nat). apply list_elem_of_filter.
    split; [done|]. right. left.
  - destruct H as (O0 & N1 & Hr & Hfi & _). intros i Hi.
    apply list_elem_of_filter in Hi as [Hocc Hi]. unfold occupied in Hocc.
    rewrite Hr, Hfi in *.
    apply elem_of_cons in Hi as [->|Hi]; simpl in *.
    { apply (Hres 0%nat). apply list_elem_of_filter. split; [done|left]. }
    apply elem_of_cons in Hi as [->|Hi]; [|by apply elem_of_nil in Hi].
    by exists field.
  - destruct H as (O0 & O1 & Hr & Hfi & _). intros i Hi.
    apply list_elem_of_filter in Hi as [Hocc Hi]. unfold occupied in Hocc.
    rewrite Hr, Hfi in *. apply (Hres i). apply list_elem_of_filter.
    by split.
Qed.

Lemma assign_slots_resolves hdev e l dev :
  wf_enum e → (∀ p, p ∈ l → p ∈ rm_fields e) →
  resolves_in e dev → resolves_in e (assign_slots hdev l dev).1.
Proof.
  intros Hwf. revert dev. induction l as [|[rep field] l IH];
    intros dev Hl Hres; simpl; [done|].
  apply IH.
  - intros p Hp. apply Hl. by right.
  - apply assign_slot_resolves; [done| |done]. apply Hl. left.
Qed.

Lemma slots_in_use_cases dev :
  (¬ occupied dev 0 → slots_in_use dev = 0%nat) ∧
  (occupied dev 0 → ¬ occupied dev 1 → slots_in_use dev = 1%nat) ∧
  (occupied dev 0 → occupied dev 1 → slots_in_use dev = 2%nat).
Proof.
  unfold slots_in_use. simpl.
  destruct (decide (occupied dev 0)), (decide (occupied dev 1)); simpl;
    split_and!; done.
Qed.

Lemma assign_slot_other h rep field dev :
  qualifies h field = false → assign_slot h (rep, field) dev = (dev, []).
Proof. intros H. unfold assign_slot. by rewrite H. Qed.

(** A qualifying field takes the next slot, or resets the multipliers
    when both are taken. *)
Lemma assign_slot_count h rep field dev :
  slot_prefix dev → rep_id rep ≠ C.UINT_MAX → qualifies h field = true →
  let r := assign_slot h (rep, field) dev in
  slots_in_use r.1 = (2 `min` S (slots_in_use dev))%nat ∧
  (slots_in_use dev = 2%nat →
   wheel_multiplier r.1 = 1 ∧ hwheel_multiplier r.1 = 1).
Proof.
  intros Hp Hid Hq r.
  destruct (slots_in_use_cases dev) as (S0 & S1 & S2).
  destruct (slots_in_use_cases r.1) as (R0 & R1 & R2).
  destruct (assign_slot_cases h rep field dev) as (_ & _ & H). fold r in H.
  destruct H as [[Hq' _]|[_ [H|[H|H]]]]; [congruence|..].
  - destruct H as (N0 & Hr & _).
    assert (¬ occupied dev 1) as N1 by (intros O1; by apply N0, Hp).
    rewrite S0 by done. unfold occupied in *. rewrite Hr in *. simpl in *.
    rewrite R1 by done. split; [done|]. intros [=].
  - destruct H as (O0 & N1 & Hr & _). rewrite S1 by done.
    unfold occupied in *. rewrite Hr in *. simpl in *.
    rewrite R2 by done. split; [done|]. intros [=].
  - destruct H as (O0 & O1 & Hr & _ & Hw & Hh & _). rewrite S2 by done.
    unfold occupied in *. rewrite Hr in *. rewrite R2 by done. done.
Qed.

Lemma slots_in_use_bound dev : (slots_in_use dev ≤ 2)%nat.
Proof.
  destruct (slots_in_use_cases dev) as (S0 & S1 & S2).
  destruct (decide (occupied dev 0)), (decide (occupied dev 1));
    rewrite ?S0, ?S1, ?S2 by done; lia.
Qed.

Lemma assign_slots_count h l dev :
  slot_prefix dev → (∀ p, p ∈ l → rep_id p.1 ≠ C.UINT_MAX) →
  let n := length (filter (λ p, qualifies h p.2 = true) l) in
  let r := assign_slots h l dev in
  slots_in_use r.1 = (2 `min` (slots_in_use dev + n))%nat ∧
  (n = 0%nat → r = (dev, [])) ∧
  ((1 ≤ n)%nat → (3 ≤ slots_in_use dev + n)%nat →
   wheel_multiplier r.1 = 1 ∧ hwheel_multiplier r.1 = 1).
Proof.
  revert dev. induction l as [|[rep field] l IH]; intros dev Hp Hids;
    cbn -[Nat.min assign_slot slots_in_use filter].
  - pose proof (slots_in_use_bound dev). rewrite filter_nil.
    cbn -[Nat.min slots_in_use]. split; [lia|]. split; [done|lia].
  - destruct (qualifies h field) eqn:Hq.
    + rewrite filter_cons_True by done. cbn -[Nat.min assign_slot slots_in_use filter].
      destruct (assign_slot_count h rep field dev Hp) as [Hc Hreset];
        [by apply (Hids (rep, field)); left|done|].
      destruct (IH (assign_slot h (rep, field) dev).1) as (IH1 & IH2 & IH3).
      { by apply assign_slot_prefix. }
      { intros p Hin. apply Hids. by right. }
      pose proof (slots_in_use_bound dev).
      split; [lia|]. split; [done|]. intros _ Hge.
      destruct (length (filter (λ p, qualifies h p.2 = true) l)) as [|n'] eqn:En.
      * rewrite (IH2 eq_refl). simpl. apply Hreset. lia.
      * apply IH3; lia.
    + rewrite filter_cons_False by (simpl; congruence).
      rewrite (assign_slot_other h rep field dev Hq).
      cbn -[Nat.min assign_slot slots_in_use filter].
      destruct (IH dev Hp) as (IH1 & IH2 & IH3).
      { intros p Hin. apply Hids. by right. }
      split; [done|]. split; [|done].
      intros Hn. by rewrite (IH2 Hn).
Qed.

Lemma rm_fields_ids e p :
  ids_valid e → p ∈ rm_fields e → rep_id p.1 ≠ C.UINT_MAX.
Proof.
  destruct p as [rep f]. intros Hids (Hrep & _)%rm_fields_elem. simpl.
  specialize (Hids rep Hrep). unfold HID_MAX_IDS, C.UINT_MAX in *. lia.
Qed.

Lemma slot_prefix_initial h : slot_prefix (probe_drvdata h).
Proof. unfold slot_prefix, occupied. simpl. done. Qed.

Lemma slots_in_use_initial h : slots_in_use (probe_drvdata h) = 0%nat.
Proof.
  apply slots_in_use_cases. unfold occupied. simpl. intros H. by apply H.
Qed.

(** Attach, once the allocation and the parse have succeeded, is the
    activator run on [probe_started], and its result is the result of
    [hid_hw_start]. *)
Lemma hid_generic_probe_step env w :
  devm_kzalloc_ok env = true → hid_parse_ret env = 0 →
  hid_generic_probe env w =
    bind hid_generic_set_resolution_multiplier
         (λ _, ret (hid_hw_start_ret env)) (probe_started w).
Proof.
  intros Hk Hp. unfold hid_generic_probe. rewrite Hk, Hp. cbn [negb Z.eqb].
  unfold bind at 1, get_hdev at 1.
  unfold bind at 1, set_drvdata at 1.
  unfold bind at 1, set_hdev at 1.
  unfold bind at 1, do_call at 1. cbn [the_hdev drvdata calls].
  fold (probe_parsed w).
  rewrite (bind_Some _ _ _ _ _
             (hid_generic_fetch_resolution_multiplier_step (probe_parsed w))).
  unfold bind at 1, do_call at 1. cbn [the_hdev drvdata calls].
  unfold probe_started. cbn zeta. by rewrite <- app_assoc.
Qed.

Lemma hid_generic_probe_parse_failed env w :
  devm_kzalloc_ok env = true → hid_parse_ret env ≠ 0 →
  hid_generic_probe env w = Some (hid_parse_ret env, probe_parsed w).
Proof.
  intros Hk Hp. unfold hid_generic_probe. rewrite Hk. cbn [negb].
  destruct (Z.eqb_spec (hid_parse_ret env) 0); [done|]. reflexivity.
Qed.

Lemma assign_slot_log h p dev c :
  c ∈ (assign_slot h p dev).2 → is_request c = false.
Proof.
  destruct p as [rep field].
  destruct (assign_slot_cases h rep field dev) as (_ & _ & H).
  destruct H as [[_ ->]|[_ [H|[H|H]]]].
  - by intros ?%elem_of_nil.
  - destruct H as (_ & _ & _ & ->). by intros ?%elem_of_nil.
  - destruct H as (_ & _ & _ & _ & ->). by intros ?%elem_of_nil.
  - destruct H as (_ & _ & _ & _ & _ & _ & ->).
    intros [->|?%elem_of_nil]%elem_of_cons; done.
Qed.

Lemma assign_slots_log h l dev :
  Forall (λ c, is_request c = false) (assign_slots h l dev).2.
Proof.
  revert dev. induction l as [|p l IH]; intros dev; simpl; [constructor|].
  apply Forall_app. split; [|apply IH].
  apply Forall_forall. intros c. apply assign_slot_log.
Qed.

Lemma resolves_in_initial e h : resolves_in e (probe_drvdata h).
Proof. intros i Hi. by apply elem_of_nil in Hi. Qed.

(** What discovery leaves when attach runs it. *)
Lemma discovered_at_attach w :
  let h := the_hdev w in
  let r := discovered (the_hdev (probe_parsed w)) (drvdata (probe_parsed w)) in
  let n := length (qualifying_fields h) in
  slot_prefix r.1 ∧
  (wf_enum (report_enum h HID_FEATURE_REPORT) →
   resolves_in (report_enum h HID_FEATURE_REPORT) r.1) ∧
  (ids_valid (report_enum h HID_FEATURE_REPORT) →
   slots_in_use r.1 = (2 `min` n)%nat ∧
   (n = 0%nat → r = (probe_drvdata h, [])) ∧
   ((3 ≤ n)%nat → wheel_multiplier r.1 = 1 ∧ hwheel_multiplier r.1 = 1)).
Proof.
  intros h r n. split; [|split].
  - apply assign_slots_prefix, slot_prefix_initial.
  - intros Hwf. apply (assign_slots_resolves _ (feature_enum h)); [done|done|].
    apply resolves_in_initial.
  - intros Hids.
    destruct (assign_slots_count (the_hdev (probe_parsed w))
                (rm_fields (feature_enum h)) (probe_drvdata h))
      as (H1 & H2 & H3).
    { apply slot_prefix_initial. }
    { intros p Hp. by eapply rm_fields_ids. }
    rewrite slots_in_use_initial in H1, H3.
    change (length (filter _ _)) with n in H1, H2, H3.
    split; [exact H1|]. split; [exact H2|].
    intros Hn. apply H3; lia.
Qed.

(** C3 as stated fails for a wheel that is a later usage of its field.
    The three Resolution Multiplier fields of [Ex_three_mixed] each
    share a collection with a wheel usage, but the wheel of collection
    1 is the third usage of its field and the scanner does not see it:
    two fields qualify, discovery ends with the wheel multiplier at 8,
    and attach makes two SET_REPORT requests. *)
Lemma three_resolution_multipliers_later_usage :
  let h := Ex_three_mixed in
  let w := Ex.world_of h (probe_drvdata h) in
  length (rm_fields (feature_enum h)) = 3%nat ∧
  Forall (λ p, collection_has_axis h (collection_index (usage p.2)) = true)
         (rm_fields (feature_enum h)) ∧
  length (qualifying_fields h) = 2%nat ∧
  ∃ w1 w',
    hid_generic_fetch_resolution_multiplier (probe_parsed w) = Some (tt, w1) ∧
    wheel_multiplier (drvdata w1) = 8 ∧
    hid_generic_probe Ex_env w = Some (-5, w') ∧
    wheel_multiplier (drvdata w') = 8 ∧
    calls w' = [ hid_parse; hid_hw_start HID_CONNECT_DEFAULT;
                 hid_hw_request HID_FEATURE_REPORT 2 HID_REQ_SET_REPORT;
                 hid_hw_request HID_FEATURE_REPORT 2 HID_REQ_SET_REPORT ].
Proof.
  intros h w. split; [by vm_compute|]. split.
  { vm_compute. repeat (constructor; [reflexivity|]). constructor. }
  split; [by vm_compute|].
  destruct (hid_generic_fetch_resolution_multiplier (probe_parsed w))
    as [[[] w1]|] eqn:E1; [|vm_compute in E1; discriminate E1].
  destruct (hid_generic_probe Ex_env w)
    as [[r w']|] eqn:E2; [|vm_compute in E2; discriminate E2].
  exists w1, w'.
  vm_compute in E1. injection E1 as <-.
  vm_compute in E2. injection E2 as <- <-.
  split; [reflexivity|]. split; [reflexivity|].
  split; [reflexivity|]. split; reflexivity.
Qed.

(** C3 (amended): when three or more Resolution Multiplier fields
    qualify as the scanner sees it, that is are in a collection of
    which the wheel or the horizontal wheel is the first usage of an
    input field, discovery returns with both multipliers at 1; an
    activation then returns without a request and without a change;
    and attach returns what [hid_hw_start] returned, with both
    multipliers at 1, having logged, after the parse, nothing but the
    errors of discovery and the start. *)
Theorem three_resolution_multipliers env w :
  let h := the_hdev w in
  ids_valid (report_enum h HID_FEATURE_REPORT) →
  (3 ≤ length (qualifying_fields h))%nat →
  devm_kzalloc_ok env = true → hid_parse_ret env = 0 →
  ∃ w1 w' errs,
    hid_generic_fetch_resolution_multiplier (probe_parsed w) = Some (tt, w1) ∧
    wheel_multiplier (drvdata w1) = 1 ∧ hwheel_multiplier (drvdata w1) = 1 ∧
    hid_generic_set_resolution_multiplier w1 = Some (tt, w1) ∧
    hid_generic_probe env w = Some (hid_hw_start_ret env, w') ∧
    wheel_multiplier (drvdata w') = 1 ∧ hwheel_multiplier (drvdata w') = 1 ∧
    calls w' = calls w ++ [hid_parse] ++ errs ++
               [hid_hw_start HID_CONNECT_DEFAULT] ∧
    Forall (λ c, is_request c = false) errs.
Proof.
  intros h Hids Hn Hk Hp.
  destruct (discovered_at_attach w) as (_ & _ & Hd).
  destruct (Hd Hids) as (_ & _ & Hreset).
  destruct (Hreset Hn) as [Hw Hh].
  eexists _, (probe_started w),
    (discovered (the_hdev (probe_parsed w)) (drvdata (probe_parsed w))).2.
  split; [apply hid_generic_fetch_resolution_multiplier_step|].
  split; [exact Hw|]. split; [exact Hh|].
  split; [by apply hid_generic_set_resolution_multiplier_noop|].
  split.
  { rewrite hid_generic_probe_step by done.
    by rewrite (bind_Some _ _ _ _ _
      (hid_generic_set_resolution_multiplier_noop (probe_started w) Hw Hh)). }
  split; [exact Hw|]. split; [exact Hh|]. split.
  { unfold probe_started. cbn [calls probe_parsed]. cbn zeta. cbn [calls].
    by rewrite <- !app_assoc. }
  apply assign_slots_log.
Qed.

Lemma three_resolution_multipliers_witness :
  ∃ w1 w' errs,
    hid_generic_fetch_resolution_multiplier
      (probe_parsed (Ex.world_of Ex_three (probe_drvdata Ex_three)))
      = Some (tt, w1) ∧
    wheel_multiplier (drvdata w1) = 1 ∧ hwheel_multiplier (drvdata w1) = 1 ∧
    hid_generic_set_resolution_multiplier w1 = Some (tt, w1) ∧
    hid_generic_probe Ex_env (Ex.world_of Ex_three (probe_drvdata Ex_three))
      = Some (-5, w') ∧
    wheel_multiplier (drvdata w') = 1 ∧ hwheel_multiplier (drvdata w') = 1 ∧
    calls w' = [] ++ [hid_parse] ++ errs ++ [hid_hw_start HID_CONNECT_DEFAULT] ∧
    Forall (λ c, is_request c = false) errs.
Proof.
  apply (three_resolution_multipliers Ex_env
           (Ex.world_of Ex_three (probe_drvdata Ex_three))).
  - intros rep Hrep. simpl in Hrep.
    repeat (apply elem_of_cons in Hrep as [->|Hrep]; [unfold HID_MAX_IDS; simpl; lia|]).
    by apply elem_of_nil in Hrep.
  - vm_compute. lia.
  - reflexivity.
  - reflexivity.
Defined.

(** C10: attach runs the activator after [hid_hw_start] whatever that
    returned, an error included.  When discovery on a well-formed
    feature report set has left a multiplier above 1, attach logs,
    after the start, one SET_REPORT request per slot in use, at least
    one, and then returns the result of [hid_hw_start]. *)
Theorem hid_generic_probe_start_failed env w w1 :
  devm_kzalloc_ok env = true → hid_parse_ret env = 0 →
  wf_enum (report_enum (the_hdev w) HID_FEATURE_REPORT) →
  hid_generic_fetch_resolution_multiplier (probe_parsed w) = Some (tt, w1) →
  1 < wheel_multiplier (drvdata w1) ∨ 1 < hwheel_multiplier (drvdata w1) →
  ∃ w' reqs,
    hid_generic_probe env w = Some (hid_hw_start_ret env, w') ∧
    calls w' = calls w1 ++ hid_hw_start HID_CONNECT_DEFAULT :: reqs ∧
    reqs = request (drvdata w1) <$> occupied_slots (drvdata w1) ∧
    reqs ≠ [] ∧
    drvdata w' = drvdata w1.
Proof.
  intros Hk Hp Hwf Hfetch Hmult.
  destruct (discovered_at_attach w) as (Hprefix & Hres & Hcount).
  destruct (Hcount (proj1 Hwf)) as (Huse & Hnone & _).
  set (r := discovered (the_hdev (probe_parsed w)) (drvdata (probe_parsed w)))
    in *.
  assert (w1 = {| the_hdev := the_hdev (probe_parsed w); drvdata := r.1;
                  calls := calls (probe_parsed w) ++ r.2 |}) as ->.
  { rewrite hid_generic_fetch_resolution_multiplier_step in Hfetch.
    injection Hfetch as <-. reflexivity. }
  cbn [drvdata calls] in Hmult |- *.
  destruct (hid_generic_set_resolution_multiplier_run (probe_started w))
    as (w' & Hrun & Hd & Hc & _).
  { exact (Hres Hwf). }
  assert (¬ (wheel_multiplier r.1 = 1 ∧ hwheel_multiplier r.1 = 1)) as Hnot
    by lia.
  assert (activation_requests r.1 = request r.1 <$> occupied_slots r.1) as Hreq.
  { unfold activation_requests. rewrite visited_prefix by done.
    destruct (Z.eqb_spec (wheel_multiplier r.1) 1);
      destruct (Z.eqb_spec (hwheel_multiplier r.1) 1); simpl; try done.
    by destruct Hnot. }
  exists w', (request r.1 <$> occupied_slots r.1).
  split.
  { rewrite hid_generic_probe_step by done.
    by rewrite (bind_Some _ _ _ _ _ Hrun). }
  split.
  { rewrite Hc. unfold probe_started. cbn [calls drvdata]. fold r.
    rewrite Hreq. by rewrite <- !app_assoc. }
  split; [done|]. split; [|exact Hd].
  rewrite <- visited_prefix by done. intros Hnil.
  apply fmap_nil_inv in Hnil.
  assert (slots_in_use r.1 = 0%nat) as Hzero
    by (unfold slots_in_use; by rewrite Hnil).
  rewrite Hzero in Huse.
  assert (length (qualifying_fields (the_hdev w)) = 0%nat) as Hn by lia.
  apply Hnot. rewrite (Hnone Hn). done.
Qed.

(** Settles [wf_enum] on a given report set. *)
Ltac check_wf_enum :=
  split; [|split];
  [ let rep := fresh "rep" in
    let Hrep := fresh "Hrep" in
    intros rep Hrep; simpl in Hrep;
    repeat (apply elem_of_cons in Hrep as [->|Hrep];
            [unfold HID_MAX_IDS; simpl; lia|]);
    by apply elem_of_nil in Hrep
  | vm_compute; repeat constructor; intros H;
    repeat (apply elem_of_cons in H as [H|H]; [discriminate H|]);
    by apply elem_of_nil in H
  | let rep := fresh "rep" in
    let k := fresh "k" in
    let f := fresh "f" in
    let Hrep := fresh "Hrep" in
    let Hk := fresh "Hk" in
    intros rep k f Hrep Hk; simpl in Hrep;
    repeat (apply elem_of_cons in Hrep as [->|Hrep];
            [repeat (destruct k as [|k]; simpl in Hk;
                     [injection Hk as <-;
                      split; [reflexivity|unfold writable; simpl; lia]|]);
             discriminate Hk|]);
    by apply elem_of_nil in Hrep ].

Lemma hid_generic_probe_start_failed_witness :
  ∃ w' reqs,
    hid_generic_probe Ex_env (Ex.world_of Ex.mouse (probe_drvdata Ex.mouse))
      = Some (-5, w') ∧
    calls w' = calls Ex_discovered ++ hid_hw_start HID_CONNECT_DEFAULT :: reqs ∧
    reqs = request (drvdata Ex_discovered)
             <$> occupied_slots (drvdata Ex_discovered) ∧
    reqs ≠ [] ∧
    drvdata w' = drvdata Ex_discovered.
Proof.
  apply (hid_generic_probe_start_failed Ex_env
           (Ex.world_of Ex.mouse (probe_drvdata Ex.mouse)) Ex_discovered).
  - reflexivity.
  - reflexivity.
  - check_wf_enum.
  - vm_compute. reflexivity.
  - left. simpl. lia.
Defined.

(** ** Capability advertisement *)

Lemma hid_generic_input_configured_step w input :
  hid_generic_input_configured input w =
    Some (0, {| the_hdev := the_hdev w;
                drvdata := set_device input (drvdata w);
                calls := calls w ++ advertised input (drvdata w) |}).
Proof.
  unfold hid_generic_input_configured, advertised. run.
  destruct (1 <? wheel_multiplier (drvdata w)),
    (1 <? hwheel_multiplier (drvdata w)); simpl;
    rewrite <- ?app_assoc, ?app_nil_r; reflexivity.
Qed.

Lemma rm_fields_none h :
  no_resolution_multiplier h → rm_fields (report_enum h HID_FEATURE_REPORT) = [].
Proof.
  intros Hno.
  destruct (rm_fields (report_enum h HID_FEATURE_REPORT)) as [|[rep f] l] eqn:E;
    [done|].
  assert ((rep, f) ∈ rm_fields (report_enum h HID_FEATURE_REPORT)) as Hin
    by (rewrite E; left).
  apply rm_fields_elem in Hin as (Hrep & Hf & Hu).
  destruct (Hno rep f (usage f) Hrep Hf); [left|done].
Qed.

(** C6: when the input device is configured the driver declares the
    high-resolution wheel code if and only if [wheel_multiplier] is
    above 1, the high-resolution horizontal code if and only if
    [hwheel_multiplier] is above 1, and nothing else.  On a device none
    of whose feature fields carries the Resolution Multiplier usage,
    attach leaves both multipliers at 1 and configuring an input device
    then declares nothing. *)
Theorem hid_generic_input_configured_advertises w input :
  (∃ w' adv,
     hid_generic_input_configured input w = Some (0, w') ∧
     calls w' = calls w ++ adv ∧
     wheel_multiplier (drvdata w') = wheel_multiplier (drvdata w) ∧
     hwheel_multiplier (drvdata w') = hwheel_multiplier (drvdata w) ∧
     (input_set_capability input EV_REL REL_WHEEL_HI_RES ∈ adv ↔
      1 < wheel_multiplier (drvdata w)) ∧
     (input_set_capability input EV_REL REL_HWHEEL_HI_RES ∈ adv ↔
      1 < hwheel_multiplier (drvdata w)) ∧
     (∀ c, c ∈ adv →
           c = input_set_capability input EV_REL REL_WHEEL_HI_RES ∨
           c = input_set_capability input EV_REL REL_HWHEEL_HI_RES)) ∧
  (no_resolution_multiplier (the_hdev w) →
   ∀ env, devm_kzalloc_ok env = true → hid_parse_ret env = 0 →
   ∃ w1,
     hid_generic_probe env w = Some (hid_hw_start_ret env, w1) ∧
     wheel_multiplier (drvdata w1) = 1 ∧
     hwheel_multiplier (drvdata w1) = 1 ∧
     ∀ input', ∃ w2,
       hid_generic_input_configured input' w1 = Some (0, w2) ∧
       calls w2 = calls w1).
Proof.
  split.
  - eexists _, (advertised input (drvdata w)).
    split; [apply hid_generic_input_configured_step|].
    split; [done|]. split; [done|]. split; [done|].
    unfold advertised.
    destruct (Z.ltb_spec 1 (wheel_multiplier (drvdata w))) as [Hw|Hw];
      destruct (Z.ltb_spec 1 (hwheel_multiplier (drvdata w))) as [Hh|Hh];
      simpl; split_and!.
    all: try (split; [intros _; lia|intros _; by repeat constructor]).
    all: try (split; [|lia]; intros Hin;
              repeat (apply elem_of_cons in Hin as [Hin|Hin];
                      [discriminate Hin|]);
              by apply elem_of_nil in Hin).
    all: intros c Hc;
      repeat (apply elem_of_cons in Hc as [->|Hc]; [by auto|]);
      by apply elem_of_nil in Hc.
  - intros Hno env Hk Hp.
    assert (discovered (the_hdev (probe_parsed w)) (drvdata (probe_parsed w))
            = (probe_drvdata (the_hdev w), [])) as Hd.
    { unfold discovered.
      change (report_enum (the_hdev (probe_parsed w)) HID_FEATURE_REPORT)
        with (report_enum (the_hdev w) HID_FEATURE_REPORT).
      by rewrite rm_fields_none. }
    exists (probe_started w).
    assert (drvdata (probe_started w) = probe_drvdata (the_hdev w)) as Hdev.
    { change (drvdata (probe_started w)) with
        (discovered (the_hdev (probe_parsed w)) (drvdata (probe_parsed w))).1.
      by rewrite Hd. }
    split.
    { rewrite hid_generic_probe_step by done.
      rewrite (bind_Some _ _ _ _ _
        (hid_generic_set_resolution_multiplier_noop (probe_started w)
           ltac:(by rewrite Hdev) ltac:(by rewrite Hdev))).
      done. }
    split; [by rewrite Hdev|]. split; [by rewrite Hdev|].
    intros input'. eexists.
    split; [apply hid_generic_input_configured_step|].
    cbn [calls]. rewrite Hdev. unfold advertised. simpl. by rewrite app_nil_r.
Qed.

Lemma hid_generic_input_configured_advertises_witness :
  ∃ w1,
    hid_generic_probe Ex_env
      (Ex.world_of Ex.plain_mouse (probe_drvdata Ex.plain_mouse))
      = Some (-5, w1) ∧
    wheel_multiplier (drvdata w1) = 1 ∧
    hwheel_multiplier (drvdata w1) = 1 ∧
    ∀ input', ∃ w2,
      hid_generic_input_configured input' w1 = Some (0, w2) ∧
      calls w2 = calls w1.
Proof.
  apply (proj2 (hid_generic_input_configured_advertises
                  (Ex.world_of Ex.plain_mouse (probe_drvdata Ex.plain_mouse))
                  0)).
  - intros rep f u Hrep. simpl in Hrep. by apply elem_of_nil in Hrep.
  - reflexivity.
  - reflexivity.
Defined.

(** ** The order of the slots *)

Lemma handle_resolution_multiplier_drvdata rep field w w' :
  handle_resolution_multiplier rep field (usage field) w = Some (tt, w') →
  drvdata w' = (assign_slot (the_hdev w) (rep, field) (drvdata w)).1.
Proof.
  intros H. rewrite handle_resolution_multiplier_step in H.
  injection H as <-. reflexivity.
Qed.

Lemma hid_generic_fetch_resolution_multiplier_drvdata w w' :
  hid_generic_fetch_resolution_multiplier w = Some (tt, w') →
  drvdata w' = (discovered (the_hdev w) (drvdata w)).1.
Proof.
  intros H. rewrite hid_generic_fetch_resolution_multiplier_step in H.
  injection H as <-. reflexivity.
Qed.

Lemma hid_generic_probe_prefix env w r w' :
  devm_kzalloc_ok env = true →
  hid_generic_probe env w = Some (r, w') →
  slot_prefix (drvdata w').
Proof.
  intros Hk H. destruct (decide (hid_parse_ret env = 0)) as [Hp|Hp].
  - rewrite hid_generic_probe_step in H by done.
    apply bind_inv in H as ([] & w1 & Hset & Hret).
    unfold ret in Hret. injection Hret as _ <-.
    apply hid_generic_set_resolution_multiplier_inv in Hset as (-> & _).
    apply (discovered_at_attach w).
  - rewrite hid_generic_probe_parse_failed in H by done.
    injection H as _ <-. apply slot_prefix_initial.
Qed.

Lemma reachable_slot_prefix w : reachable w → slot_prefix (drvdata w).
Proof.
  induction 1 as [w|w rep field w' _ IH H|w w' _ IH H|w w' _ IH H
                 |env w r w' Hk H|w field usage' v r w' _ IH H
                 |w input r w' _ IH H|w r w' _ IH H].
  - apply slot_prefix_initial.
  - rewrite (handle_resolution_multiplier_drvdata _ _ _ _ H).
    by apply assign_slot_prefix.
  - rewrite (hid_generic_fetch_resolution_multiplier_drvdata _ _ H).
    by apply assign_slots_prefix.
  - apply hid_generic_set_resolution_multiplier_inv in H as (-> & _). done.
  - by eapply hid_generic_probe_prefix.
  - destruct (hid_generic_event_drvdata w field usage' v) as (w2 & H2 & Hd & _).
    rewrite H2 in H. injection H as _ <-. by rewrite Hd.
  - rewrite hid_generic_input_configured_step in H. injection H as _ <-.
    exact IH.
  - unfold hid_generic_reset_resume in H.
    apply bind_inv in H as ([] & w1 & Hset & Hret).
    unfold ret in Hret. injection Hret as _ <-.
    apply hid_generic_set_resolution_multiplier_inv in Hset as (-> & _). done.
Qed.

(** C9: in every reachable world slot 1 is in use only if slot 0 is.
    A step of discovery that finds slot 0 empty leaves slot 1 empty.
    The slots the loop of the activator reaches are therefore exactly
    the slots in use, and an activation that has work to do logs one
    request for each of them. *)
Theorem slot_prefix_invariant w :
  reachable w →
  let dev := drvdata w in
  (occupied dev 1 → occupied dev 0) ∧
  (∀ rep field w',
     handle_resolution_multiplier rep field (usage field) w = Some (tt, w') →
     ¬ occupied dev 0 → ¬ occupied (drvdata w') 1) ∧
  visited dev [0; 1]%nat = occupied_slots dev ∧
  (∀ w',
     hid_generic_set_resolution_multiplier w = Some (tt, w') →
     ¬ (wheel_multiplier dev = 1 ∧ hwheel_multiplier dev = 1) →
     calls w' = calls w ++ (request dev <$> occupied_slots dev)).
Proof.
  intros Hreach dev.
  pose proof (reachable_slot_prefix w Hreach) as Hp. fold dev in Hp.
  split; [exact Hp|]. split; [|split].
  - intros rep field w' H N0.
    rewrite (handle_resolution_multiplier_drvdata _ _ _ _ H). fold dev.
    assert (¬ occupied dev 1) as N1 by (intros O1; by apply N0, Hp).
    destruct (assign_slot_cases (the_hdev w) rep field dev) as (_ & _ & Hc).
    destruct Hc as [[_ ->]|[_ [Hc|[Hc|Hc]]]]; [done|..].
    + destruct Hc as (_ & Hr & _). unfold occupied in *. by rewrite Hr.
    + by destruct Hc as (O0 & _).
    + by destruct Hc as (O0 & _).
  - by apply visited_prefix.
  - intros w' H Hnot.
    apply hid_generic_set_resolution_multiplier_inv in H as (_ & Hc & _).
    rewrite Hc. f_equal. fold dev.
    unfold activation_requests. rewrite visited_prefix by done.
    destruct (Z.eqb_spec (wheel_multiplier dev) 1);
      destruct (Z.eqb_spec (hwheel_multiplier dev) 1); simpl; try done.
    by destruct Hnot.
Qed.

(** The mouse after an attach: both slots are in use. *)
Lemma slot_prefix_invariant_witness :
  match hid_generic_probe Ex_env
          (Ex.world_of Ex.mouse (probe_drvdata Ex.mouse)) with
  | Some (_, w) =>
      occupied_slots (drvdata w) = [0; 1]%nat ∧
      (occupied (drvdata w) 1 → occupied (drvdata w) 0) ∧
      visited (drvdata w) [0; 1]%nat = occupied_slots (drvdata w)
  | None => False
  end.
Proof.
  destruct (hid_generic_probe Ex_env
              (Ex.world_of Ex.mouse (probe_drvdata Ex.mouse)))
    as [[r w]|] eqn:E.
  - assert (reachable w) as Hreach.
    { eapply (reachable_probe Ex_env); [reflexivity|exact E]. }
    destruct (slot_prefix_invariant w Hreach) as (Hp & _ & Hv & _).
    split; [|split; [exact Hp|exact Hv]].
    vm_compute in E. injection E as _ <-. reflexivity.
  - vm_compute in E. discriminate E.
Defined.

(** * Further properties *)

(** ** The report store under the activator *)

Lemma list_find_insert_keep {A} (P : A → Prop) `{!∀ x, Decision (P x)}
    (l : list A) i y z :
  l !! i = Some z → (P y ↔ P z) →
  list_find P (<[i:=y]> l) =
    (λ jx, (jx.1, if decide (jx.1 = i) then y else jx.2)) <$> list_find P l.
Proof.
  revert i. induction l as [|x l IH]; intros i Hi Hyz; [done|].
  destruct i as [|i]; simpl in *.
  - injection Hi as ->.
    destruct (decide (P y)) as [Hy|Hy], (decide (P z)) as [Hz|Hz];
      try tauto; simpl.
    destruct (list_find P l) as [[j x]|]; simpl; done.
  - destruct (decide (P x)); simpl; [done|].
    rewrite (IH i Hi Hyz).
    destruct (list_find P l) as [[j x']|]; simpl; [|done].
    destruct (decide (j = i)) as [->|N].
    + by rewrite decide_True.
    + by rewrite decide_False by lia.
Qed.

(** Replacing one field of one report: every pair designates what it
    designated, but for the pairs that designate the replaced field. *)
Lemma slot_field_insert e id fi ri rep f g id2 fi2 :
  report_id_hash e id = Some (ri, rep) →
  rep_field rep !! Z.to_nat fi = Some f →
  slot_field (<[ri := set_rep_field (<[Z.to_nat fi := g]> (rep_field rep)) rep]> e)
    id2 fi2 =
    if decide (id2 = id ∧ Z.to_nat fi2 = Z.to_nat fi) then Some g
    else slot_field e id2 fi2.
Proof.
  intros Hhash Hf.
  pose proof (report_id_hash_id _ _ _ _ Hhash) as Hid.
  assert (e !! ri = Some rep ∧ 0 <= id < HID_MAX_IDS ∧
          list_find (λ r, rep_id r = id) e = Some (ri, rep)) as (Hri & Hrange & Hfind).
  { unfold report_id_hash in Hhash. case_decide; [|done].
    split; [|done]. by apply list_find_Some in Hhash as (? & _). }
  unfold slot_field, report_id_hash.
  destruct (decide (0 <= id2 < HID_MAX_IDS)) as [Hr2|Hr2].
  2: { rewrite decide_False; [done|]. intros [-> _]. done. }
  rewrite (list_find_insert_keep (λ r, rep_id r = id2) e ri _ rep Hri)
    by done.
  destruct (list_find (λ r, rep_id r = id2) e) as [[rj r]|] eqn:Hfind2; simpl.
  2: { rewrite decide_False; [done|]. intros [-> _]. congruence. }
  apply list_find_Some in Hfind2 as (Hrj & Hidr & Hleast2).
  destruct (decide (rj = ri)) as [->|Nr].
  - assert (r = rep) as -> by congruence. simpl.
    destruct (decide (Z.to_nat fi2 = Z.to_nat fi)) as [E|N].
    + rewrite decide_True by (split; [congruence|done]).
      rewrite E. apply list_lookup_insert_eq. by eapply lookup_lt_Some.
    + rewrite decide_False by (intros [_ ?]; done).
      by rewrite list_lookup_insert_ne.
  - rewrite decide_False; [done|]. intros [-> _].
    apply Nr. apply list_find_Some in Hfind as (_ & _ & Hleast).
    destruct (Nat.lt_trichotomy rj ri) as [Hlt|[->|Hgt]]; [|done|].
    + by destruct (Hleast rj r).
    + by destruct (Hleast2 ri rep).
Qed.

(** What one turn of the loop does when it does not fault. *)
Lemma slot_step_exact w i w' :
  set_resolution_multiplier_slot i w = Some (tt, w') →
  ∃ f, field_of_slot w i = Some f ∧ writable f ∧
       ∀ id fi,
         slot_field (feature_enum (the_hdev w')) id fi =
           if decide (designates (drvdata w) i id fi) then Some (written f)
           else slot_field (feature_enum (the_hdev w)) id fi.
Proof.
  intros H. unfold set_resolution_multiplier_slot in H. run.
  destruct (report_id_hash (feature_enum (the_hdev w))
              (at2 (report_id (drvdata w)) i)) as [[ri rep]|] eqn:Hhash;
    [|done].
  simpl in H.
  destruct (rep_field rep !! Z.to_nat (at2 (field_index (drvdata w)) i))
    as [f|] eqn:Hf; [|done].
  simpl in H. case_decide as W; [|done]. injection H as <-.
  exists f. split; [|split; [done|]].
  { unfold field_of_slot, slot_field. simpl. by rewrite Hhash. }
  intros id fi. simpl.
  rewrite (slot_field_insert _ _ _ _ _ _ _ id fi Hhash Hf).
  unfold designates, written. by apply decide_ext.
Qed.

Lemma written_idemp f : written (written f) = written f.
Proof.
  unfold written, set_value. simpl. f_equal. apply list_insert_insert_eq.
Qed.

Lemma written_writable f : writable f → at_maximum (written f).
Proof. intros W. apply (set_value_evolves f W). Qed.

Lemma slot_field_designates e dev i id fi :
  designates dev i id fi →
  slot_field e id fi =
  slot_field e (at2 (report_id dev) i) (at2 (field_index dev) i).
Proof. intros [-> E]. unfold slot_field. by rewrite E. Qed.

(** What a run of the loop that does not fault has done: the slots it
    reached designated writable fields, and a pair designates the field
    it designated, written if one of those slots designates it. *)
Lemma set_resolution_multiplier_loop_exact slots w w' :
  set_resolution_multiplier_loop slots w = Some (tt, w') →
  (∀ i, i ∈ visited (drvdata w) slots →
        ∃ f, field_of_slot w i = Some f ∧ writable f) ∧
  (∀ id fi,
     slot_field (feature_enum (the_hdev w')) id fi =
       if decide (Exists (λ i, designates (drvdata w) i id fi)
                         (visited (drvdata w) slots))
       then written <$> slot_field (feature_enum (the_hdev w)) id fi
       else slot_field (feature_enum (the_hdev w)) id fi).
Proof.
  revert w. induction slots as [|i slots IH]; intros w H;
    cbn [set_resolution_multiplier_loop visited] in *.
  - unfold ret in H. injection H as <-. split.
    + intros i Hi. by apply elem_of_nil in Hi.
    + intros id fi. rewrite decide_False; [done|]. by intros ?%Exists_nil.
  - unfold bind at 1, hid_get_drvdata at 1 in H. unfold occupied.
    destruct (Z.eqb_spec (at2 (report_id (drvdata w)) i) C.UINT_MAX) as [E|N].
    + rewrite decide_False by (intros H'; by apply H').
      unfold ret in H. injection H as <-. split.
      * intros j Hj. by apply elem_of_nil in Hj.
      * intros id fi. rewrite decide_False; [done|]. by intros ?%Exists_nil.
    + rewrite decide_True by done.
      apply bind_inv in H as ([] & w1 & Hstep & Hrest).
      pose proof (slot_step_inv _ _ _ Hstep) as (Hd1 & _ & _).
      apply slot_step_exact in Hstep as (f & Hf & W & Hstore).
      apply IH in Hrest as (Hres & Hexact). rewrite Hd1 in Hres, Hexact.
      assert (∀ id fi,
                slot_field (feature_enum (the_hdev w1)) id fi =
                if decide (designates (drvdata w) i id fi)
                then written <$> slot_field (feature_enum (the_hdev w)) id fi
                else slot_field (feature_enum (the_hdev w)) id fi) as Hone.
      { intros id fi. rewrite Hstore. case_decide as Hdes; [|done].
        rewrite (slot_field_designates _ _ _ _ _ Hdes).
        unfold field_of_slot in Hf. simpl in Hf. by rewrite Hf. }
      split.
      * intros j [->|Hj]%elem_of_cons; [by exists f|].
        destruct (Hres j Hj) as (g & Hg & Wg).
        unfold field_of_slot in Hg |- *. rewrite Hd1 in Hg. simpl in *.
        rewrite Hone in Hg. case_decide as Hdes.
        -- destruct (slot_field (feature_enum (the_hdev w)) _ _) as [g0|] eqn:Eg;
             [|done].
           exists g0. split; [done|].
           rewrite (slot_field_designates _ _ _ _ _ Hdes) in Eg.
           unfold field_of_slot in Hf. simpl in Hf. congruence.
        -- by exists g.
      * intros id fi. rewrite Hexact, Hone.
        destruct (decide (designates (drvdata w) i id fi)) as [Hi|Hi];
          destruct (decide (Exists (λ k, designates (drvdata w) k id fi)
                              (visited (drvdata w) slots))) as [Hr|Hr].
        -- rewrite decide_True by by left.
           destruct (slot_field (feature_enum (the_hdev w)) id fi); [|done].
           simpl. by rewrite written_idemp.
        -- by rewrite decide_True by by left.
        -- by rewrite decide_True by by right.
        -- rewrite decide_False; [done|]. by intros [?|?]%Exists_cons.
Qed.

(** X1: when a multiplier differs from 1 the activator runs to its
    end exactly when every slot its loop reaches designates a report of
    the feature set, a field of that report, and a value of that field
    for its leading usage; otherwise it faults on the missing object. *)
Theorem hid_generic_set_resolution_multiplier_safe w :
  let dev := drvdata w in
  ¬ (wheel_multiplier dev = 1 ∧ hwheel_multiplier dev = 1) →
  ((∃ w', hid_generic_set_resolution_multiplier w = Some (tt, w')) ↔
   ∀ i, i ∈ visited dev [0; 1]%nat →
        ∃ f, field_of_slot w i = Some f ∧ writable f).
Proof.
  intros dev Hnot.
  assert (hid_generic_set_resolution_multiplier w =
          set_resolution_multiplier_loop [0; 1]%nat w) as ->.
  { unfold hid_generic_set_resolution_multiplier.
    unfold bind, hid_get_drvdata. fold dev.
    destruct (Z.eqb_spec (wheel_multiplier dev) 1);
      destruct (Z.eqb_spec (hwheel_multiplier dev) 1); simpl; try done.
    by destruct Hnot. }
  split.
  - intros [w' Hrun].
    by apply set_resolution_multiplier_loop_exact in Hrun as (Hres & _).
  - intros Hres.
    destruct (set_resolution_multiplier_loop_spec [0; 1]%nat w Hres)
      as (w' & Hrun & _).
    by exists w'.
Qed.

Lemma hid_generic_set_resolution_multiplier_safe_witness :
  (∃ w', hid_generic_set_resolution_multiplier Ex_attached = Some (tt, w')) ∧
  ¬ (∃ w', hid_generic_set_resolution_multiplier Ex_dangling = Some (tt, w')).
Proof.
  split.
  - apply (proj2 (hid_generic_set_resolution_multiplier_safe Ex_attached
                    ltac:(simpl; intros [H _]; discriminate H))).
    intros i Hi. apply visited_occupied_slots in Hi. revert i Hi.
    resolve_slots.
  - intros H.
    pose proof (proj1 (hid_generic_set_resolution_multiplier_safe Ex_dangling
                         ltac:(simpl; intros [H' _]; discriminate H')) H) as H2.
    destruct (H2 0%nat) as (f & Hf & _); [by left|].
    vm_compute in Hf. discriminate Hf.
Defined.

(** X2: an activation that has work to do and does not fault sets, in
    the field of every slot its loop reaches, the value of the leading
    usage to the logical maximum of that field and changes nothing else
    of the field; every other field of the feature reports, and the
    quirks and the input and output reports of the device, are as they
    were. *)
Theorem hid_generic_set_resolution_multiplier_writes w w' :
  let dev := drvdata w in
  ¬ (wheel_multiplier dev = 1 ∧ hwheel_multiplier dev = 1) →
  hid_generic_set_resolution_multiplier w = Some (tt, w') →
  (∀ i f, i ∈ visited dev [0; 1]%nat → field_of_slot w i = Some f →
          field_of_slot w' i = Some (written f)) ∧
  (∀ id fi, (∀ i, i ∈ visited dev [0; 1]%nat → ¬ designates dev i id fi) →
            slot_field (report_enum (the_hdev w') HID_FEATURE_REPORT) id fi =
            slot_field (report_enum (the_hdev w) HID_FEATURE_REPORT) id fi) ∧
  quirks (the_hdev w') = quirks (the_hdev w) ∧
  report_enum (the_hdev w') HID_INPUT_REPORT =
    report_enum (the_hdev w) HID_INPUT_REPORT ∧
  report_enum (the_hdev w') HID_OUTPUT_REPORT =
    report_enum (the_hdev w) HID_OUTPUT_REPORT.
Proof.
  intros dev Hnot Hrun.
  pose proof (hid_generic_set_resolution_multiplier_inv _ _ Hrun)
    as (Hd & _ & (_ & Hq & Hin & Hout & _)).
  assert (set_resolution_multiplier_loop [0; 1]%nat w = Some (tt, w')) as Hloop.
  { rewrite <- Hrun. unfold hid_generic_set_resolution_multiplier.
    unfold bind, hid_get_drvdata. fold dev.
    destruct (Z.eqb_spec (wheel_multiplier dev) 1);
      destruct (Z.eqb_spec (hwheel_multiplier dev) 1); simpl; try done.
    by destruct Hnot. }
  apply set_resolution_multiplier_loop_exact in Hloop as (_ & Hexact).
  fold dev in Hexact. split_and!; [| |done..].
  - intros i f Hi Hf. unfold field_of_slot in *. rewrite Hd.
    cbn [report_enum] in *. fold dev in Hf |- *.
    rewrite Hexact, Hf. rewrite decide_True; [done|].
    apply Exists_exists. exists i. split; [done|]. by split.
  - intros id fi Hfree. simpl. rewrite Hexact.
    rewrite decide_False; [done|].
    intros (i & Hi & Hdes)%Exists_exists. by destruct (Hfree i Hi).
Qed.

Lemma hid_generic_set_resolution_multiplier_writes_witness :
  match hid_generic_set_resolution_multiplier Ex_attached with
  | Some (_, w') =>
      (∀ i f, i ∈ visited (drvdata Ex_attached) [0; 1]%nat →
              field_of_slot Ex_attached i = Some f →
              field_of_slot w' i = Some (written f)) ∧
      value <$> field_of_slot w' 0 = Some [1] ∧
      value <$> field_of_slot w' 1 = Some [1]
  | None => False
  end.
Proof.
  destruct (hid_generic_set_resolution_multiplier Ex_attached)
    as [[[] w']|] eqn:E.
  - destruct (hid_generic_set_resolution_multiplier_writes Ex_attached w'
                ltac:(simpl; intros [H _]; discriminate H) E) as (Hw & _).
    split; [exact Hw|].
    split.
    + by rewrite (Hw 0%nat (Ex.field_of HID_GD_RESOLUTION_MULTIPLIER 2 1 8 0)
                    ltac:(by left) eq_refl).
    + by rewrite (Hw 1%nat (Ex.field_of HID_GD_RESOLUTION_MULTIPLIER 3 1 4 1)
                    ltac:(by right; left) eq_refl).
  - vm_compute in E. discriminate E.
Defined.

(** X3: after an attach on a well-formed feature report set, a resume
    logs again exactly the requests that the attach logged after the
    start, leaves the driver data and the device as the attach left
    them, and returns 0. *)
Theorem hid_generic_reset_resume_after_probe env w r w' :
  devm_kzalloc_ok env = true → hid_parse_ret env = 0 →
  wf_enum (report_enum (the_hdev w) HID_FEATURE_REPORT) →
  hid_generic_probe env w = Some (r, w') →
  ∃ before reqs,
    calls w' = before ++ hid_hw_start HID_CONNECT_DEFAULT :: reqs ∧
    Forall (λ c, is_request c = true) reqs ∧
    hid_generic_reset_resume w' = Some (0, log w' reqs).
Proof.
  intros Hk Hp Hwf Hprobe.
  rewrite hid_generic_probe_step in Hprobe by done.
  apply bind_inv in Hprobe as ([] & w1 & Hset & Hret).
  unfold ret in Hret. injection Hret as _ <-.
  destruct (discovered_at_attach w) as (Hprefix & Hres & _).
  destruct (hid_generic_set_resolution_multiplier_run (probe_started w))
    as (w2 & Hrun & Hd & Hc & _ & Hmax); [exact (Hres Hwf)|].
  assert (w2 = w1) as -> by congruence.
  set (dev := drvdata (probe_started w)) in *.
  exists (calls (probe_parsed w) ++
          (discovered (the_hdev (probe_parsed w)) (drvdata (probe_parsed w))).2),
    (activation_requests dev).
  split.
  { rewrite Hc. unfold probe_started at 1. cbv zeta. cbn [calls].
    by rewrite <- !app_assoc. }
  split.
  { unfold activation_requests.
    destruct ((wheel_multiplier dev =? 1) && (hwheel_multiplier dev =? 1));
      [constructor|].
    apply Forall_fmap, Forall_forall. done. }
  assert (hid_generic_set_resolution_multiplier w1 =
          Some (tt, log w1 (activation_requests dev))) as Hagain.
  { unfold hid_generic_set_resolution_multiplier, activation_requests.
    unfold bind at 1, hid_get_drvdata at 1. rewrite Hd.
    destruct (Z.eqb_spec (wheel_multiplier dev) 1) as [E1|N1];
      destruct (Z.eqb_spec (hwheel_multiplier dev) 1) as [E2|N2];
      cbn [andb].
    1: { unfold ret. by rewrite log_nil. }
    all: rewrite set_resolution_multiplier_loop_fixed, Hd; [done|];
      intros i Hi; rewrite Hd in Hi;
      destruct (Hres Hwf i (visited_occupied_slots _ _ Hi)) as (f & Hf & W);
      destruct (Hmax ltac:(intros []; done) i f Hi Hf) as (f' & Hf' & Hm & _);
      by exists f'. }
  unfold hid_generic_reset_resume.
  by rewrite (bind_Some _ _ _ _ _ Hagain).
Qed.

Lemma hid_generic_reset_resume_after_probe_witness :
  match hid_generic_probe Ex_env
          (Ex.world_of Ex.mouse (probe_drvdata Ex.mouse)) with
  | Some (_, w') =>
      ∃ before reqs,
        calls w' = before ++ hid_hw_start HID_CONNECT_DEFAULT :: reqs ∧
        Forall (λ c, is_request c = true) reqs ∧
        hid_generic_reset_resume w' = Some (0, log w' reqs)
  | None => False
  end.
Proof.
  assert (wf_enum (report_enum Ex.mouse HID_FEATURE_REPORT)) as Hwf
    by check_wf_enum.
  destruct (hid_generic_probe Ex_env
              (Ex.world_of Ex.mouse (probe_drvdata Ex.mouse)))
    as [[r w']|] eqn:E.
  - exact (hid_generic_reset_resume_after_probe Ex_env
             (Ex.world_of Ex.mouse (probe_drvdata Ex.mouse)) r w'
             eq_refl eq_refl Hwf E).
  - vm_compute in E. discriminate E.
Defined.

(** ** Attach and what follows it *)

Lemma slots_resolve_preserved w w' :
  report_id (drvdata w') = report_id (drvdata w) →
  field_index (drvdata w') = field_index (drvdata w) →
  hdev_evolves (the_hdev w) (the_hdev w') →
  slots_resolve w → slots_resolve w'.
Proof.
  intros Hr Hf (_ & _ & _ & _ & Hev) Hres i Hi.
  unfold occupied_slots, occupied in Hi. rewrite Hr in Hi.
  destruct (Hres i Hi) as (f & Hslot & W).
  unfold field_of_slot in *. rewrite Hr, Hf. simpl in *.
  destruct (Hev _ _ _ Hslot) as (f' & Hslot' & Hfe).
  exists f'. split; [done|]. by eapply writable_evolves.
Qed.

Lemma hid_generic_probe_resolves env w r w' :
  devm_kzalloc_ok env = true →
  wf_enum (report_enum (the_hdev w) HID_FEATURE_REPORT) →
  hid_generic_probe env w = Some (r, w') →
  slots_resolve w'.
Proof.
  intros Hk Hwf H. destruct (decide (hid_parse_ret env = 0)) as [Hp|Hp].
  - rewrite hid_generic_probe_step in H by done.
    apply bind_inv in H as ([] & w1 & Hset & Hret).
    unfold ret in Hret. injection Hret as _ <-.
    apply hid_generic_set_resolution_multiplier_inv in Hset as (Hd & _ & Hev).
    apply (slots_resolve_preserved (probe_started w)); [by rewrite Hd..|done|].
    apply (discovered_at_attach w), Hwf.
  - rewrite hid_generic_probe_parse_failed in H by done.
    injection H as _ <-. intros i Hi. by apply elem_of_nil in Hi.
Qed.

(** X4: after an attach on a well-formed feature report set, no
    sequence of events, configurations of input devices and resumes
    changes the multipliers, the slots or the back-reference to the
    device; and a resume, at any point, runs to its end and returns 0. *)
Theorem serving_keeps_discovery env w r w0 w1 :
  devm_kzalloc_ok env = true →
  wf_enum (report_enum (the_hdev w) HID_FEATURE_REPORT) →
  hid_generic_probe env w = Some (r, w0) →
  serving w0 w1 →
  wheel_multiplier (drvdata w1) = wheel_multiplier (drvdata w0) ∧
  hwheel_multiplier (drvdata w1) = hwheel_multiplier (drvdata w0) ∧
  report_id (drvdata w1) = report_id (drvdata w0) ∧
  field_index (drvdata w1) = field_index (drvdata w0) ∧
  hdev (drvdata w1) = hdev (drvdata w0) ∧
  ∃ w2, hid_generic_reset_resume w1 = Some (0, w2) ∧ drvdata w2 = drvdata w1.
Proof.
  intros Hk Hwf Hprobe Hserv.
  pose proof (hid_generic_probe_resolves _ _ _ _ Hk Hwf Hprobe) as Hres0.
  assert (wheel_multiplier (drvdata w1) = wheel_multiplier (drvdata w0) ∧
          hwheel_multiplier (drvdata w1) = hwheel_multiplier (drvdata w0) ∧
          report_id (drvdata w1) = report_id (drvdata w0) ∧
          field_index (drvdata w1) = field_index (drvdata w0) ∧
          hdev (drvdata w1) = hdev (drvdata w0) ∧
          slots_resolve w1) as (Hw & Hh & Hr & Hf & Hb & Hres).
  { clear Hprobe.
    induction Hserv as [|w1 field usage' v r' w' _ IH H
                        |w1 input r' w' _ IH H|w1 r' w' _ IH H].
    - done.
    - destruct IH as (? & ? & ? & ? & ? & IHres).
      destruct (hid_generic_event_drvdata w1 field usage' v)
        as (w2 & Hev2 & Hd & Hh').
      rewrite Hev2 in H. injection H as _ <-. rewrite Hd.
      split_and!; [done..|].
      apply (slots_resolve_preserved w1); [by rewrite Hd..| |done].
      rewrite Hh'. apply hdev_evolves_refl.
    - destruct IH as (? & ? & ? & ? & ? & IHres).
      rewrite hid_generic_input_configured_step in H. injection H as _ <-.
      split_and!; [done..|].
      apply (slots_resolve_preserved w1); [done|done| |done].
      apply hdev_evolves_refl.
    - destruct IH as (? & ? & ? & ? & ? & IHres).
      unfold hid_generic_reset_resume in H.
      apply bind_inv in H as ([] & w2 & Hset & Hret).
      unfold ret in Hret. injection Hret as _ <-.
      apply hid_generic_set_resolution_multiplier_inv in Hset as (Hd & _ & Hev).
      rewrite Hd. split_and!; [done..|].
      apply (slots_resolve_preserved w1); [by rewrite Hd..|done|done]. }
  split_and!; [done..|].
  destruct (hid_generic_set_resolution_multiplier_run w1 Hres)
    as (w2 & Hrun & Hd & _).
  exists w2. split; [|done].
  unfold hid_generic_reset_resume. by rewrite (bind_Some _ _ _ _ _ Hrun).
Qed.

(** the mouse attached, then a wheel event, a resume and the
    configuration of an input device *)
Lemma serving_keeps_discovery_witness :
  match hid_generic_probe Ex_env
          (Ex.world_of Ex.mouse (probe_drvdata Ex.mouse)) with
  | Some (_, w0) =>
      match (hid_generic_event Ex.wheel_field (usage Ex.wheel_field) 3;;;
             hid_generic_reset_resume;;;
             hid_generic_input_configured 77)%M w0 with
      | Some (_, w1) =>
          wheel_multiplier (drvdata w1) = 8 ∧
          hwheel_multiplier (drvdata w1) = 4 ∧
          report_id (drvdata w1) = (2, 2) ∧
          ∃ w2, hid_generic_reset_resume w1 = Some (0, w2) ∧
                drvdata w2 = drvdata w1
      | None => False
      end
  | None => False
  end.
Proof.
  assert (wf_enum (report_enum Ex.mouse HID_FEATURE_REPORT)) as Hwf
    by check_wf_enum.
  destruct (hid_generic_probe Ex_env
              (Ex.world_of Ex.mouse (probe_drvdata Ex.mouse)))
    as [[r w0]|] eqn:E; [|vm_compute in E; discriminate E].
  destruct ((hid_generic_event Ex.wheel_field (usage Ex.wheel_field) 3;;;
             hid_generic_reset_resume;;;
             hid_generic_input_configured 77)%M w0) as [[r1 w1]|] eqn:E1.
  - pose proof E1 as E1'.
    apply bind_inv in E1' as (ra & wa & Ha & E2).
    apply bind_inv in E2 as (rb & wb & Hb & Hc).
    assert (serving w0 w1) as Hserv.
    { eapply serving_input_configured; [|exact Hc].
      eapply serving_reset_resume; [|exact Hb].
      eapply serving_event; [|exact Ha]. constructor. }
    destruct (serving_keeps_discovery Ex_env
                (Ex.world_of Ex.mouse (probe_drvdata Ex.mouse)) r w0 w1
                eq_refl Hwf E Hserv)
      as (Hw & Hh & Hr & _ & _ & Hres).
    vm_compute in E. injection E as _ <-.
    split; [exact Hw|]. split; [exact Hh|]. split; [exact Hr|exact Hres].
  - vm_compute in E. injection E as _ <-. vm_compute in E1. discriminate E1.
Defined.

(** X5: on a well-formed feature report set attach never faults.  When
    the allocation fails it returns -ENOMEM and has only logged the
    error; when the parse fails it returns the result of the parse with
    the driver data initialised and the quirk set, without discovery,
    start or request; otherwise it returns the result of
    [hid_hw_start], with the multipliers and the slots as discovery
    left them. *)
Theorem hid_generic_probe_returns env w :
  wf_enum (report_enum (the_hdev w) HID_FEATURE_REPORT) →
  (devm_kzalloc_ok env = false →
   hid_generic_probe env w =
     Some (- ENOMEM, log w [dev_err "cannot allocate hid-generic data"])) ∧
  (devm_kzalloc_ok env = true → hid_parse_ret env ≠ 0 →
   hid_generic_probe env w = Some (hid_parse_ret env, probe_parsed w) ∧
   calls (probe_parsed w) = calls w ++ [hid_parse] ∧
   drvdata (probe_parsed w) = probe_drvdata (the_hdev w)) ∧
  (devm_kzalloc_ok env = true → hid_parse_ret env = 0 →
   ∃ w1 w',
     hid_generic_fetch_resolution_multiplier (probe_parsed w) = Some (tt, w1) ∧
     hid_generic_probe env w = Some (hid_hw_start_ret env, w') ∧
     wheel_multiplier (drvdata w') = wheel_multiplier (drvdata w1) ∧
     hwheel_multiplier (drvdata w') = hwheel_multiplier (drvdata w1) ∧
     report_id (drvdata w') = report_id (drvdata w1) ∧
     field_index (drvdata w') = field_index (drvdata w1)).
Proof.
  intros Hwf. split; [|split].
  - intros Hk. unfold hid_generic_probe. rewrite Hk. reflexivity.
  - intros Hk Hp. split; [by apply hid_generic_probe_parse_failed|done].
  - intros Hk Hp.
    destruct (discovered_at_attach w) as (_ & Hres & _).
    destruct (hid_generic_set_resolution_multiplier_run (probe_started w))
      as (w' & Hrun & Hd & _ & Hev & _); [exact (Hres Hwf)|].
    eexists _, w'.
    split; [apply hid_generic_fetch_resolution_multiplier_step|].
    split.
    { rewrite hid_generic_probe_step by done.
      by rewrite (bind_Some _ _ _ _ _ Hrun). }
    by rewrite Hd.
Qed.

Lemma hid_generic_probe_returns_witness :
  let w := Ex.world_of Ex.mouse (probe_drvdata Ex.mouse) in
  hid_generic_probe
    {| devm_kzalloc_ok := false; hid_parse_ret := 0; hid_hw_start_ret := 0 |} w
    = Some (-12, log w [dev_err "cannot allocate hid-generic data"]) ∧
  hid_generic_probe
    {| devm_kzalloc_ok := true; hid_parse_ret := -22; hid_hw_start_ret := 0 |} w
    = Some (-22, probe_parsed w) ∧
  ∃ w1 w',
    hid_generic_fetch_resolution_multiplier (probe_parsed w) = Some (tt, w1) ∧
    hid_generic_probe Ex_env w = Some (-5, w') ∧
    wheel_multiplier (drvdata w') = wheel_multiplier (drvdata w1) ∧
    hwheel_multiplier (drvdata w') = hwheel_multiplier (drvdata w1) ∧
    report_id (drvdata w') = report_id (drvdata w1) ∧
    field_index (drvdata w') = field_index (drvdata w1).
Proof.
  intros w.
  assert (wf_enum (report_enum (the_hdev w) HID_FEATURE_REPORT)) as Hwf
    by check_wf_enum.
  split; [|split].
  - exact (proj1 (hid_generic_probe_returns
             {| devm_kzalloc_ok := false; hid_parse_ret := 0;
                hid_hw_start_ret := 0 |} w Hwf) eq_refl).
  - apply (proj1 (proj2 (hid_generic_probe_returns
             {| devm_kzalloc_ok := true; hid_parse_ret := -22;
                hid_hw_start_ret := 0 |} w Hwf))); [reflexivity|].
    simpl. discriminate.
  - exact (proj2 (proj2 (hid_generic_probe_returns Ex_env w Hwf))
             eq_refl eq_refl).
Defined.

Lemma lor_input_per_app_bits q n :
  0 <= n →
  Z.testbit (Z.lor q HID_QUIRK_INPUT_PER_APP) n = Z.testbit q n || (n =? 11).
Proof.
  intros Hn. rewrite Z.lor_spec. f_equal.
  unfold HID_QUIRK_INPUT_PER_APP. change (Z.shiftl 1 11) with (2 ^ 11).
  destruct (Z.eqb_spec n 11) as [->|N].
  - by apply Z.pow2_bits_true.
  - apply Z.pow2_bits_false. lia.
Qed.

(** X6: an attach whose allocation succeeded leaves the device with
    the INPUT_PER_APP quirk set and every other quirk bit, the
    special-driver flag among them, as it was, whether or not the parse
    and the start succeeded; the input and output reports are as they
    were. *)
Theorem hid_generic_probe_quirks env w r w' :
  devm_kzalloc_ok env = true →
  hid_generic_probe env w = Some (r, w') →
  (∀ n, 0 <= n →
        Z.testbit (quirks (the_hdev w')) n =
        Z.testbit (quirks (the_hdev w)) n || (n =? 11)) ∧
  (flagged (the_hdev w') ↔ flagged (the_hdev w)) ∧
  report_enum (the_hdev w') HID_INPUT_REPORT =
    report_enum (the_hdev w) HID_INPUT_REPORT ∧
  report_enum (the_hdev w') HID_OUTPUT_REPORT =
    report_enum (the_hdev w) HID_OUTPUT_REPORT.
Proof.
  intros Hk H.
  assert (quirks (the_hdev w') =
            Z.lor (quirks (the_hdev w)) HID_QUIRK_INPUT_PER_APP ∧
          input_enum (the_hdev w') = input_enum (the_hdev w) ∧
          output_enum (the_hdev w') = output_enum (the_hdev w))
    as (Hq & Hin & Hout).
  { destruct (decide (hid_parse_ret env = 0)) as [Hp|Hp].
    - rewrite hid_generic_probe_step in H by done.
      apply bind_inv in H as ([] & w1 & Hset & Hret).
      unfold ret in Hret. injection Hret as _ <-.
      apply hid_generic_set_resolution_multiplier_inv in Hset
        as (_ & _ & (_ & Hq & Hin & Hout & _)).
      rewrite Hq, Hin, Hout. done.
    - rewrite hid_generic_probe_parse_failed in H by done.
      injection H as _ <-. done. }
  split; [|split; [|done]].
  - intros n Hn. rewrite Hq. by apply lor_input_per_app_bits.
  - unfold flagged. rewrite Hq, lor_input_per_app_bits by lia.
    simpl. by rewrite orb_false_r.
Qed.

Lemma hid_generic_probe_quirks_witness :
  match hid_generic_probe Ex_env
          (Ex.world_of Ex.mouse (probe_drvdata Ex.mouse)) with
  | Some (_, w') =>
      quirks (the_hdev w') = 2048 ∧
      (flagged (the_hdev w') ↔ flagged Ex.mouse)
  | None => False
  end.
Proof.
  destruct (hid_generic_probe Ex_env
              (Ex.world_of Ex.mouse (probe_drvdata Ex.mouse)))
    as [[r w']|] eqn:E.
  - destruct (hid_generic_probe_quirks Ex_env
                (Ex.world_of Ex.mouse (probe_drvdata Ex.mouse)) r w'
                eq_refl E) as (_ & Hf & _).
    split; [|exact Hf].
    vm_compute in E. injection E as _ <-. reflexivity.
  - vm_compute in E. discriminate E.
Defined.

(** ** What discovery computes *)

Lemma assign_slots_filter h l dev :
  assign_slots h l dev =
  assign_slots h (filter (λ p, qualifies h p.2 = true) l) dev.
Proof.
  revert dev. induction l as [|[rep f] l IH]; intros dev; [done|].
  destruct (qualifies h f) eqn:Hq.
  - rewrite filter_cons_True by done. cbn [assign_slots]. by rewrite !IH.
  - rewrite filter_cons_False by (simpl; congruence). cbn [assign_slots].
    rewrite (assign_slot_other h rep f dev Hq). cbn [fst snd app].
    rewrite IH. by destruct (assign_slots h _ dev).
Qed.

Lemma assign_slots_full h l dev :
  occupied dev 0 → occupied dev 1 →
  Forall (λ p, qualifies h p.2 = true) l →
  let r := assign_slots h l dev in
  report_id r.1 = report_id dev ∧ field_index r.1 = field_index dev ∧
  r.2 = replicate (length l) (hid_err "invalid Resolution Multipliers").
Proof.
  intros O0 O1 Hl. revert dev O0 O1.
  induction Hl as [|[rep f] l Hq _ IH]; intros dev O0 O1; [done|].
  simpl in Hq. cbn [assign_slots length replicate fst snd].
  destruct (assign_slot_cases h rep f dev) as (_ & _ & H).
  destruct H as [[Hq' _]|[_ [H|[H|H]]]];
    [congruence
    |destruct H as (N0 & _); by destruct N0
    |destruct H as (_ & N1 & _); by destruct N1|].
  destruct H as (_ & _ & Hr & Hf & _ & _ & Hlog).
  destruct (IH (assign_slot h (rep, f) dev).1) as (IH1 & IH2 & IH3).
  { unfold occupied in *. by rewrite Hr. }
  { unfold occupied in *. by rewrite Hr. }
  rewrite IH1, IH2, IH3, Hr, Hf, Hlog. done.
Qed.

Lemma assign_slot_multipliers h rep f dev :
  qualifies h f = true → ¬ (occupied dev 0 ∧ occupied dev 1) →
  let r := assign_slot h (rep, f) dev in
  wheel_multiplier r.1 =
    (if usage_in_collection h HID_GD_WHEEL (collection_index (usage f))
     then C.u32 (physical_maximum f) else wheel_multiplier dev) ∧
  hwheel_multiplier r.1 =
    (if usage_in_collection h HID_CP_AC_PAN (collection_index (usage f))
     then C.u32 (physical_maximum f) else hwheel_multiplier dev).
Proof.
  intros Hq Hfree. unfold assign_slot, occupied in *. rewrite Hq. simpl.
  destruct (usage_in_collection h HID_GD_WHEEL _),
    (usage_in_collection h HID_CP_AC_PAN _); simpl;
    (destruct (Z.eqb_spec (report_id dev).1 C.UINT_MAX) as [E0|N0]; simpl;
     [done|destruct (Z.eqb_spec (report_id dev).2 C.UINT_MAX) as [E1|N1]; simpl;
           [done|by destruct Hfree]]).
Qed.

Lemma last_multiplier_snoc h u q p :
  last_multiplier h u (q ++ [p]) =
    if usage_in_collection h u (collection_index (usage p.2))
    then C.u32 (physical_maximum p.2) else last_multiplier h u q.
Proof.
  unfold last_multiplier. rewrite filter_app.
  destruct (usage_in_collection h u (collection_index (usage p.2))) eqn:E.
  - rewrite (filter_cons_True _ p []) by done.
    rewrite fmap_app. simpl. by rewrite last_snoc.
  - rewrite (filter_cons_False _ p []) by congruence.
    by rewrite filter_nil, app_nil_r.
Qed.

Lemma last_multiplier_one h u p :
  last_multiplier h u [p] =
    if usage_in_collection h u (collection_index (usage p.2))
    then C.u32 (physical_maximum p.2) else 1.
Proof. apply (last_multiplier_snoc h u [] p). Qed.

Lemma last_multiplier_two h u p1 p2 :
  last_multiplier h u [p1; p2] =
    if usage_in_collection h u (collection_index (usage p2.2))
    then C.u32 (physical_maximum p2.2)
    else if usage_in_collection h u (collection_index (usage p1.2))
         then C.u32 (physical_maximum p1.2) else 1.
Proof.
  change [p1; p2] with ([p1] ++ [p2]).
  rewrite (last_multiplier_snoc h u [p1] p2).
  by rewrite last_multiplier_one.
Qed.

(** Discovery started on empty slots, on a list of qualifying fields. *)
Lemma assign_slots_first_two h q dev :
  ¬ occupied dev 0 → ¬ occupied dev 1 →
  Forall (λ p, qualifies h p.2 = true) q →
  (∀ p, p ∈ q → rep_id p.1 ≠ C.UINT_MAX) →
  let r := assign_slots h q dev in
  report_id r.1 = first_two (λ p, rep_id p.1) q ∧
  field_index r.1 =
    (default (field_index dev).1 ((λ p, index p.2) <$> q !! 0%nat),
     default (field_index dev).2 ((λ p, index p.2) <$> q !! 1%nat)) ∧
  r.2 = replicate (length q - 2) (hid_err "invalid Resolution Multipliers") ∧
  ((length q ≤ 2)%nat →
   wheel_multiplier r.1 =
     (if decide (Exists (λ p, usage_in_collection h HID_GD_WHEEL
                                (collection_index (usage p.2)) = true) q)
      then last_multiplier h HID_GD_WHEEL q else wheel_multiplier dev) ∧
   hwheel_multiplier r.1 =
     (if decide (Exists (λ p, usage_in_collection h HID_CP_AC_PAN
                                (collection_index (usage p.2)) = true) q)
      then last_multiplier h HID_CP_AC_PAN q else hwheel_multiplier dev)).
Proof.
  intros N0 N1 Hq Hids r.
  assert (report_id dev = (C.UINT_MAX, C.UINT_MAX)) as Hempty.
  { unfold occupied in *. destruct (report_id dev) as [a b]. simpl in *.
    f_equal; [by destruct (decide (a = C.UINT_MAX))
             |by destruct (decide (b = C.UINT_MAX))]. }
  destruct q as [|[r1 f1] q].
  { subst r. simpl. rewrite Hempty. split_and!; try done.
    by destruct (field_index dev). }
  apply Forall_cons in Hq as [Hq1 Hq]. simpl in Hq1.
  assert (rep_id r1 ≠ C.UINT_MAX) as Hid1 by (apply (Hids (r1, f1)); left).
  destruct (assign_slot_cases h r1 f1 dev) as (_ & _ & H1).
  destruct H1 as [[Hq' _]|[_ [H1|[H1|H1]]]];
    [congruence| |destruct H1 as (O0 & _); by destruct N0..].
  destruct H1 as (_ & Hr1 & Hf1 & Hlog1).
  destruct (assign_slot_multipliers h r1 f1 dev Hq1) as [Hw1 Hh1];
    [by intros [? _]|].
  set (dev1 := (assign_slot h (r1, f1) dev).1) in *.
  destruct q as [|[r2 f2] q].
  { subst r. cbn [assign_slots fst snd]. fold dev1.
    rewrite Hr1, Hf1, Hlog1, Hempty. split_and!; try done. intros _.
    rewrite !last_multiplier_one. cbn [snd]. rewrite Hw1, Hh1.
    split.
    - destruct (usage_in_collection h HID_GD_WHEEL _) eqn:E.
      + by rewrite decide_True by (left; done).
      + rewrite decide_False; [done|].
        intros [?|?%Exists_nil]%Exists_cons; [simpl in *; congruence|done].
    - destruct (usage_in_collection h HID_CP_AC_PAN _) eqn:E.
      + by rewrite decide_True by (left; done).
      + rewrite decide_False; [done|].
        intros [?|?%Exists_nil]%Exists_cons; [simpl in *; congruence|done]. }
  apply Forall_cons in Hq as [Hq2 Hq]. simpl in Hq2.
  assert (rep_id r2 ≠ C.UINT_MAX) as Hid2
    by (apply (Hids (r2, f2)); right; left).
  assert (occupied dev1 0 ∧ ¬ occupied dev1 1) as [O0 N1'].
  { unfold occupied in *. rewrite Hr1. simpl. split; [done|].
    by rewrite Hempty in N1 |- *. }
  destruct (assign_slot_cases h r2 f2 dev1) as (_ & _ & H2).
  destruct H2 as [[Hq' _]|[_ [H2|[H2|H2]]]];
    [congruence|destruct H2 as (N0' & _); by destruct N0'|
    |destruct H2 as (_ & O1' & _); by destruct N1'].
  destruct H2 as (_ & _ & Hr2 & Hf2 & Hlog2).
  destruct (assign_slot_multipliers h r2 f2 dev1 Hq2) as [Hw2 Hh2];
    [by intros [_ ?]|].
  set (dev2 := (assign_slot h (r2, f2) dev1).1) in *.
  destruct (assign_slots_full h q dev2) as (Hr3 & Hf3 & Hlog3); [..|done|].
  { unfold occupied in *. rewrite Hr2, Hr1. done. }
  { unfold occupied in *. rewrite Hr2. done. }
  subst r. cbn [assign_slots fst snd]. fold dev1. fold dev2.
  rewrite Hr3, Hf3, Hlog3, Hr2, Hf2, Hlog2, Hr1, Hf1, Hlog1.
  cbn [length fst snd].
  replace (S (S (length q)) - 2)%nat with (length q) by lia.
  split_and!; try done.
  intros Hlen. destruct q; [|simpl in Hlen; lia]. cbn [assign_slots fst].
  rewrite !last_multiplier_two. cbn [snd].
  rewrite Hw2, Hh2, Hw1, Hh1.
  split.
  - destruct (usage_in_collection h HID_GD_WHEEL (collection_index (usage f2)))
      eqn:E2; [by rewrite decide_True by (right; left; done)|].
    destruct (usage_in_collection h HID_GD_WHEEL (collection_index (usage f1)))
      eqn:E1; [by rewrite decide_True by (left; done)|].
    rewrite decide_False; [done|].
    intros [?|[?|?%Exists_nil]%Exists_cons]%Exists_cons;
      simpl in *; congruence.
  - destruct (usage_in_collection h HID_CP_AC_PAN (collection_index (usage f2)))
      eqn:E2; [by rewrite decide_True by (right; left; done)|].
    destruct (usage_in_collection h HID_CP_AC_PAN (collection_index (usage f1)))
      eqn:E1; [by rewrite decide_True by (left; done)|].
    rewrite decide_False; [done|].
    intros [?|[?|?%Exists_nil]%Exists_cons]%Exists_cons;
      simpl in *; congruence.
Qed.

Lemma qualifying_fields_qualify h :
  Forall (λ p, qualifies h p.2 = true) (qualifying_fields h).
Proof.
  apply Forall_forall. intros p Hp.
  by apply list_elem_of_filter in Hp as [? _].
Qed.

Lemma qualifying_fields_ids h p :
  ids_valid (report_enum h HID_FEATURE_REPORT) →
  p ∈ qualifying_fields h → rep_id p.1 ≠ C.UINT_MAX.
Proof.
  intros Hids Hp. apply list_elem_of_filter in Hp as [_ Hp].
  by eapply rm_fields_ids.
Qed.

Lemma last_multiplier_none h u q :
  ¬ Exists (λ p, usage_in_collection h u (collection_index (usage p.2)) = true) q →
  last_multiplier h u q = 1.
Proof.
  intros Hno. unfold last_multiplier.
  replace (filter _ q) with (@nil (hid_report * hid_field)); [done|].
  induction q as [|p q IH]; [done|].
  rewrite filter_cons_False by (intros ?; apply Hno; by left).
  apply IH. intros ?. apply Hno. by right.
Qed.

(** What discovery leaves when attach runs it, in terms of the
    qualifying fields. *)
Lemma discovered_qualifying w :
  let h := the_hdev w in
  let q := qualifying_fields h in
  let r := discovered (the_hdev (probe_parsed w)) (drvdata (probe_parsed w)) in
  ids_valid (report_enum h HID_FEATURE_REPORT) →
  report_id r.1 = first_two (λ p, rep_id p.1) q ∧
  field_index r.1 = first_two (λ p, index p.2) q ∧
  r.2 = replicate (length q - 2) (hid_err "invalid Resolution Multipliers") ∧
  ((length q ≤ 2)%nat →
   wheel_multiplier r.1 = last_multiplier h HID_GD_WHEEL q ∧
   hwheel_multiplier r.1 = last_multiplier h HID_CP_AC_PAN q).
Proof.
  intros h q r Hids.
  set (h' := the_hdev (probe_parsed w)).
  assert (r = assign_slots h' q (probe_drvdata h)) as ->.
  { unfold r, discovered. rewrite assign_slots_filter. reflexivity. }
  destruct (assign_slots_first_two h' q (probe_drvdata h))
    as (Hr & Hf & Hlog & Hmult).
  { unfold occupied. simpl. by intros H. }
  { unfold occupied. simpl. by intros H. }
  { exact (qualifying_fields_qualify h). }
  { intros p Hp. by eapply qualifying_fields_ids. }
  split; [exact Hr|]. split; [exact Hf|]. split; [exact Hlog|].
  intros Hlen. destruct (Hmult Hlen) as [Hw Hh]. clear Hmult.
  split.
  - rewrite Hw. clear Hw Hh. case_decide as Hex; [reflexivity|].
    symmetry. apply last_multiplier_none. exact Hex.
  - rewrite Hh. clear Hw Hh. case_decide as Hex; [reflexivity|].
    symmetry. apply last_multiplier_none. exact Hex.
Qed.

(** X7: discovery, run by attach on report sets whose ids are valid,
    records in slot 0 and slot 1 the report id and the field index of
    the first and of the second qualifying Resolution Multiplier field,
    in the order of the report list, and leaves a slot at -1 when there
    is no such field; later qualifying fields never replace them.  It
    logs one error for each qualifying field after the second and
    nothing else, and leaves the device as it was. *)
Theorem hid_generic_fetch_resolution_multiplier_slots w :
  let h := the_hdev w in
  let q := qualifying_fields h in
  ids_valid (report_enum h HID_FEATURE_REPORT) →
  ∃ w1,
    hid_generic_fetch_resolution_multiplier (probe_parsed w) = Some (tt, w1) ∧
    the_hdev w1 = the_hdev (probe_parsed w) ∧
    report_id (drvdata w1) = first_two (λ p, rep_id p.1) q ∧
    field_index (drvdata w1) = first_two (λ p, index p.2) q ∧
    calls w1 = calls (probe_parsed w) ++
               replicate (length q - 2)
                 (hid_err "invalid Resolution Multipliers").
Proof.
  intros h q Hids.
  destruct (discovered_qualifying w Hids) as (Hr & Hf & Hlog & _).
  eexists. split; [apply hid_generic_fetch_resolution_multiplier_step|].
  cbn [the_hdev drvdata calls]. split; [done|].
  split; [exact Hr|]. split; [exact Hf|]. by rewrite Hlog.
Qed.

Lemma hid_generic_fetch_resolution_multiplier_slots_witness :
  ∃ w1,
    hid_generic_fetch_resolution_multiplier Ex_three_parsed = Some (tt, w1) ∧
    the_hdev w1 = the_hdev Ex_three_parsed ∧
    report_id (drvdata w1) = (2, 2) ∧
    field_index (drvdata w1) = (0, 1) ∧
    calls w1 = [hid_parse; hid_err "invalid Resolution Multipliers"].
Proof.
  apply (hid_generic_fetch_resolution_multiplier_slots
           (Ex.world_of Ex_three (probe_drvdata Ex_three))).
  intros rep Hrep. simpl in Hrep.
  repeat (apply elem_of_cons in Hrep as [->|Hrep];
          [unfold HID_MAX_IDS; simpl; lia|]).
  by apply elem_of_nil in Hrep.
Defined.

(** X8: when at most two Resolution Multiplier fields qualify,
    discovery leaves in [wheel_multiplier] the physical maximum, taken
    as [unsigned], of the last qualifying field that has the wheel in
    its collection, and 1 when there is none; and likewise in
    [hwheel_multiplier] for the horizontal wheel. *)
Theorem hid_generic_fetch_resolution_multiplier_values w :
  let h := the_hdev w in
  let q := qualifying_fields h in
  ids_valid (report_enum h HID_FEATURE_REPORT) →
  (length q ≤ 2)%nat →
  ∃ w1,
    hid_generic_fetch_resolution_multiplier (probe_parsed w) = Some (tt, w1) ∧
    wheel_multiplier (drvdata w1) = last_multiplier h HID_GD_WHEEL q ∧
    hwheel_multiplier (drvdata w1) = last_multiplier h HID_CP_AC_PAN q.
Proof.
  intros h q Hids Hlen.
  destruct (discovered_qualifying w Hids) as (_ & _ & _ & Hmult).
  destruct (Hmult Hlen) as [Hw Hh].
  eexists. split; [apply hid_generic_fetch_resolution_multiplier_step|].
  cbn [drvdata]. split; [exact Hw|exact Hh].
Qed.

Lemma hid_generic_fetch_resolution_multiplier_values_witness :
  ∃ w1,
    hid_generic_fetch_resolution_multiplier
      (probe_parsed (Ex.world_of Ex.mouse (probe_drvdata Ex.mouse)))
      = Some (tt, w1) ∧
    wheel_multiplier (drvdata w1) = 8 ∧
    hwheel_multiplier (drvdata w1) = 4.
Proof.
  apply (hid_generic_fetch_resolution_multiplier_values
           (Ex.world_of Ex.mouse (probe_drvdata Ex.mouse))).
  - intros rep Hrep. simpl in Hrep.
    repeat (apply elem_of_cons in Hrep as [->|Hrep];
            [unfold HID_MAX_IDS; simpl; lia|]).
    by apply elem_of_nil in Hrep.
  - vm_compute. lia.
Defined.

(** ** Translation after attach *)

Lemma serving_unit_multipliers w0 w1 :
  wheel_multiplier (drvdata w0) = 1 → hwheel_multiplier (drvdata w0) = 1 →
  serving w0 w1 →
  wheel_multiplier (drvdata w1) = 1 ∧ hwheel_multiplier (drvdata w1) = 1.
Proof.
  intros Hw Hh. induction 1 as [|w1 field usage' v r' w' _ IH H
                                |w1 input r' w' _ IH H|w1 r' w' _ IH H].
  - done.
  - destruct (hid_generic_event_drvdata w1 field usage' v)
      as (w2 & Hev2 & Hd & _).
    rewrite Hev2 in H. injection H as _ <-. by rewrite Hd.
  - rewrite hid_generic_input_configured_step in H. injection H as _ <-.
    exact IH.
  - unfold hid_generic_reset_resume in H.
    apply bind_inv in H as ([] & w2 & Hset & Hret).
    unfold ret in Hret. injection Hret as _ <-.
    apply hid_generic_set_resolution_multiplier_inv in Hset as (-> & _).
    exact IH.
Qed.

(** X9: on a device none of whose Resolution Multiplier fields
    qualifies (none at all, or none in the collection of a wheel),
    attach logs the parse and the start and nothing else; from then on,
    whatever events, configurations and resumes come, an event of
    value [v] of a wheel usage that is the first usage of its field,
    one of the input fields of the device, is translated into the
    high-resolution event of value [v] and the legacy event of value
    [v], and likewise for the horizontal wheel; configuring an input
    device declares no capability and a resume does nothing. *)
Theorem plain_wheel_pass_through env w r w0 w1 :
  devm_kzalloc_ok env = true → hid_parse_ret env = 0 →
  qualifying_fields (the_hdev w) = [] →
  hid_generic_probe env w = Some (r, w0) →
  serving w0 w1 →
  calls w0 = calls w ++ [hid_parse; hid_hw_start HID_CONNECT_DEFAULT] ∧
  (∀ field usage' v,
     input_field (the_hdev w) field → usage' = usage field → C.is_s32 v →
     (hid usage' = HID_GD_WHEEL →
      hid_generic_event field usage' v w1 =
        Some (1, log w1 [ input_report_rel (device (drvdata w1)) REL_WHEEL_HI_RES v;
                          input_report_rel (device (drvdata w1)) REL_WHEEL v;
                          input_sync (device (drvdata w1)) ])) ∧
     (hid usage' = HID_CP_AC_PAN →
      hid_generic_event field usage' v w1 =
        Some (1, log w1 [ input_report_rel (device (drvdata w1)) REL_HWHEEL_HI_RES v;
                          input_report_rel (device (drvdata w1)) REL_HWHEEL v;
                          input_sync (device (drvdata w1)) ]))) ∧
  (∀ input, ∃ w2, hid_generic_input_configured input w1 = Some (0, w2) ∧
                  calls w2 = calls w1) ∧
  hid_generic_reset_resume w1 = Some (0, w1).
Proof.
  intros Hk Hp Hq Hprobe Hserv.
  assert (discovered (the_hdev (probe_parsed w)) (drvdata (probe_parsed w))
          = (probe_drvdata (the_hdev w), [])) as Hd.
  { unfold discovered. rewrite assign_slots_filter.
    change (filter _ _) with (qualifying_fields (the_hdev w)).
    by rewrite Hq. }
  assert (drvdata (probe_started w) = probe_drvdata (the_hdev w)) as Hdev.
  { change (drvdata (probe_started w)) with
      (discovered (the_hdev (probe_parsed w)) (drvdata (probe_parsed w))).1.
    by rewrite Hd. }
  assert (w0 = probe_started w) as ->.
  { rewrite hid_generic_probe_step in Hprobe by done.
    rewrite (bind_Some _ _ _ _ _
      (hid_generic_set_resolution_multiplier_noop (probe_started w)
         ltac:(by rewrite Hdev) ltac:(by rewrite Hdev))) in Hprobe.
    unfold ret in Hprobe. by injection Hprobe as _ <-. }
  destruct (serving_unit_multipliers (probe_started w) w1) as [Hw Hh];
    [by rewrite Hdev..|done|].
  split.
  { unfold probe_started. cbv zeta. cbn [calls]. rewrite Hd.
    cbn [snd calls probe_parsed]. by rewrite <- app_assoc. }
  split; [|split].
  - intros field usage' v _ -> Hv. split; intros Hu.
    + rewrite (hid_generic_event_wheel _ _ _ _ Hu). unfold scroll_calls.
      rewrite Hw, Z.mul_1_r, s32_id by done. done.
    + rewrite (hid_generic_event_pan _ _ _ _ Hu). unfold scroll_calls.
      rewrite Hh, Z.mul_1_r, s32_id by done. done.
  - intros input. eexists.
    split; [apply hid_generic_input_configured_step|].
    cbn [calls]. unfold advertised. rewrite Hw, Hh. simpl.
    by rewrite app_nil_r.
  - unfold hid_generic_reset_resume.
    by rewrite (bind_Some _ _ _ _ _
      (hid_generic_set_resolution_multiplier_noop w1 Hw Hh)).
Qed.

(** the mouse with the two wheels and no Resolution Multiplier
    attached, then configured on input device 77 *)
Lemma plain_wheel_pass_through_witness :
  match (hid_generic_probe Ex_env;;;
         hid_generic_input_configured 77)%M
          (Ex.world_of Ex_wheels (probe_drvdata Ex_wheels)) with
  | Some (_, w1) =>
      hid_generic_event Ex.wheel_field (usage Ex.wheel_field) (-2) w1 =
        Some (1, log w1 [ input_report_rel 77 REL_WHEEL_HI_RES (-2);
                          input_report_rel 77 REL_WHEEL (-2);
                          input_sync 77 ]) ∧
      hid_generic_reset_resume w1 = Some (0, w1)
  | None => False
  end.
Proof.
  assert (input_field Ex_wheels Ex.wheel_field) as Hin.
  { eexists. split; [left|]. right. left. }
  destruct ((hid_generic_probe Ex_env;;;
             hid_generic_input_configured 77)%M
              (Ex.world_of Ex_wheels (probe_drvdata Ex_wheels)))
    as [[r1 w1]|] eqn:E; [|vm_compute in E; discriminate E].
  pose proof E as E'.
  apply bind_inv in E' as (r0 & w0 & Hprobe & Hconf).
  assert (serving w0 w1) as Hserv.
  { eapply serving_input_configured; [constructor|exact Hconf]. }
  destruct (plain_wheel_pass_through Ex_env
              (Ex.world_of Ex_wheels (probe_drvdata Ex_wheels))
              r0 w0 w1 eq_refl eq_refl eq_refl Hprobe Hserv)
    as (_ & Hev & _ & Hres).
  split; [|exact Hres].
  assert (device (drvdata w1) = 77) as Hdev.
  { vm_compute in E. by injection E as _ <-. }
  rewrite <- Hdev.
  apply (proj1 (Hev Ex.wheel_field (usage Ex.wheel_field) (-2)
                  Hin eq_refl ltac:(unfold C.is_s32; lia))).
  reflexivity.
Defined.

Lemma s32_mul_u32 (v pm : Z) : C.s32 (v * C.u32 pm) = C.s32 (v * pm).
Proof.
  unfold C.s32, C.u32. f_equal.
  rewrite <- (Zplus_mod_idemp_l (v * (pm mod 2 ^ 32))).
  rewrite <- (Zplus_mod_idemp_l (v * pm)).
  f_equal. f_equal. by rewrite Z.mul_mod_idemp_r by lia.
Qed.

(** X10: the multiplier is read from the signed physical maximum into
    an [unsigned], and the product is handed over as an [int]: the two
    conversions cancel, and the high-resolution value is the value
    times the physical maximum as it was declared, negative or not,
    brought into the [int] range. *)
Theorem hid_generic_event_signed_scale w field usage' v pm :
  (hid (usage field) = HID_GD_WHEEL →
   wheel_multiplier (drvdata w) = C.u32 pm →
   hid_generic_event field usage' v w =
     Some (1, log w [ input_report_rel (device (drvdata w)) REL_WHEEL_HI_RES
                        (C.s32 (v * pm));
                      input_report_rel (device (drvdata w)) REL_WHEEL v;
                      input_sync (device (drvdata w)) ])) ∧
  (hid (usage field) = HID_CP_AC_PAN →
   hwheel_multiplier (drvdata w) = C.u32 pm →
   hid_generic_event field usage' v w =
     Some (1, log w [ input_report_rel (device (drvdata w)) REL_HWHEEL_HI_RES
                        (C.s32 (v * pm));
                      input_report_rel (device (drvdata w)) REL_HWHEEL v;
                      input_sync (device (drvdata w)) ])).
Proof.
  split; intros Hu Hm.
  - rewrite (hid_generic_event_wheel _ _ _ _ Hu). unfold scroll_calls.
    by rewrite Hm, s32_mul_u32.
  - rewrite (hid_generic_event_pan _ _ _ _ Hu). unfold scroll_calls.
    by rewrite Hm, s32_mul_u32.
Qed.

(** a physical maximum of -4: the multiplier is 4294967292 and a wheel
    value of 3 is sent as -12 *)
Lemma hid_generic_event_signed_scale_witness :
  let w := Ex.world_of Ex.mouse (Ex.dev_of Ex.mouse 4294967292 4294967292) in
  hid_generic_event Ex.wheel_field (usage Ex.wheel_field) 3 w =
    Some (1, log w [ input_report_rel 0 REL_WHEEL_HI_RES (-12);
                     input_report_rel 0 REL_WHEEL 3;
                     input_sync 0 ]) ∧
  hid_generic_event Ex.pan_field (usage Ex.pan_field) 3 w =
    Some (1, log w [ input_report_rel 0 REL_HWHEEL_HI_RES (-12);
                     input_report_rel 0 REL_HWHEEL 3;
                     input_sync 0 ]).
Proof.
  intros w. split.
  - exact (proj1 (hid_generic_event_signed_scale w Ex.wheel_field
                    (usage Ex.wheel_field) 3 (-4)) eq_refl eq_refl).
  - exact (proj2 (hid_generic_event_signed_scale w Ex.pan_field
                    (usage Ex.pan_field) 3 (-4)) eq_refl eq_refl).
Defined.

(** X11: a wheel multiplier of 0, which is what a qualifying field with
    physical maximum 0 gives, is not the 1 of the untouched driver
    data: the activator still runs its loop and logs the requests of
    the slots it reaches; the high-resolution wheel capability is not
    declared; and every wheel event is still translated, with a
    high-resolution value of 0 whatever the value of the event. *)
Theorem wheel_multiplier_zero w :
  wheel_multiplier (drvdata w) = 0 →
  let dev := drvdata w in
  (∀ field usage' v,
     hid (usage field) = HID_GD_WHEEL →
     hid_generic_event field usage' v w =
       Some (1, log w [ input_report_rel (device dev) REL_WHEEL_HI_RES 0;
                        input_report_rel (device dev) REL_WHEEL v;
                        input_sync (device dev) ])) ∧
  (∀ input, ∃ w' adv,
     hid_generic_input_configured input w = Some (0, w') ∧
     calls w' = calls w ++ adv ∧
     input_set_capability input EV_REL REL_WHEEL_HI_RES ∉ adv) ∧
  (slots_resolve w →
   ∃ w', hid_generic_set_resolution_multiplier w = Some (tt, w') ∧
         calls w' = calls w ++ (request dev <$> visited dev [0; 1]%nat)).
Proof.
  intros Hz dev. subst dev. split; [|split].
  - intros field usage' v Hu.
    rewrite (hid_generic_event_wheel _ _ _ _ Hu). unfold scroll_calls.
    by rewrite Hz, Z.mul_0_r.
  - intros input. eexists _, (advertised input (drvdata w)).
    split; [apply hid_generic_input_configured_step|]. split; [done|].
    unfold advertised. rewrite Hz. simpl.
    destruct (1 <? hwheel_multiplier (drvdata w)).
    + intros [H|H%elem_of_nil]%elem_of_cons; [discriminate H|done].
    + by intros H%elem_of_nil.
  - intros Hres.
    destruct (hid_generic_set_resolution_multiplier_run w Hres)
      as (w' & Hrun & _ & Hc & _).
    exists w'. split; [done|]. rewrite Hc. f_equal.
    unfold activation_requests. by rewrite Hz.
Qed.

Lemma wheel_multiplier_zero_witness :
  let w := {| the_hdev := Ex.mouse;
              drvdata := {| hdev := 4096; device := 0;
                            wheel_multiplier := 0; hwheel_multiplier := 1;
                            report_id := (2, C.UINT_MAX);
                            field_index := (0, C.UINT_MAX) |};
              calls := [] |} in
  hid_generic_event Ex.wheel_field (usage Ex.wheel_field) 3 w =
    Some (1, log w [ input_report_rel 0 REL_WHEEL_HI_RES 0;
                     input_report_rel 0 REL_WHEEL 3;
                     input_sync 0 ]) ∧
  ∃ w', hid_generic_set_resolution_multiplier w = Some (tt, w') ∧
        calls w' = [hid_hw_request HID_FEATURE_REPORT 2 HID_REQ_SET_REPORT].
Proof.
  intros w.
  destruct (wheel_multiplier_zero w eq_refl) as (Hev & _ & Hset).
  split; [exact (Hev Ex.wheel_field (usage Ex.wheel_field) 3 eq_refl)|].
  apply Hset. resolve_slots.
Defined.

(** X12: the translator sends its events to the input device that was
    configured last: after two input devices have been configured, each
    has been declared the capabilities its multipliers call for, and
    every call of a wheel translation names the second. *)
Theorem hid_generic_event_last_input w a b :
  ∃ w2,
    (hid_generic_input_configured a;;; hid_generic_input_configured b)%M w
      = Some (0, w2) ∧
    calls w2 = calls w ++ advertised a (drvdata w) ++ advertised b (drvdata w) ∧
    device (drvdata w2) = b ∧
    ∀ field usage' v,
      (hid (usage field) = HID_GD_WHEEL →
       hid_generic_event field usage' v w2 =
         Some (1, log w2 (scroll_calls b REL_WHEEL_HI_RES REL_WHEEL v
                            (wheel_multiplier (drvdata w))))) ∧
      (hid (usage field) = HID_CP_AC_PAN →
       hid_generic_event field usage' v w2 =
         Some (1, log w2 (scroll_calls b REL_HWHEEL_HI_RES REL_HWHEEL v
                            (hwheel_multiplier (drvdata w))))).
Proof.
  eexists. split.
  { rewrite (bind_Some _ _ _ _ _ (hid_generic_input_configured_step w a)).
    apply hid_generic_input_configured_step. }
  cbn [calls drvdata]. split; [by rewrite <- app_assoc|]. split; [done|].
  intros field usage' v. split; intros Hu.
  - by rewrite (hid_generic_event_wheel _ _ _ _ Hu).
  - by rewrite (hid_generic_event_pan _ _ _ _ Hu).
Qed.

Lemma hid_generic_event_last_input_witness :
  ∃ w2,
    (hid_generic_input_configured 5;;; hid_generic_input_configured 6)%M
      Ex_attached = Some (0, w2) ∧
    hid_generic_event Ex.wheel_field (usage Ex.wheel_field) 3 w2 =
      Some (1, log w2 [ input_report_rel 6 REL_WHEEL_HI_RES 24;
                        input_report_rel 6 REL_WHEEL 3;
                        input_sync 6 ]).
Proof.
  destruct (hid_generic_event_last_input Ex_attached 5 6)
    as (w2 & Hrun & _ & _ & Hev).
  exists w2. split; [exact Hrun|].
  exact (proj1 (Hev Ex.wheel_field (usage Ex.wheel_field) 3) eq_refl).
Defined.




(** ** The log of an attach *)

Lemma visited_first_two dev q :
  report_id dev = first_two (λ p, rep_id p.1) q →
  (∀ p, p ∈ q → rep_id p.1 ≠ C.UINT_MAX) →
  request dev <$> visited dev [0; 1]%nat =
  (λ p, hid_hw_request HID_FEATURE_REPORT (rep_id p.1) HID_REQ_SET_REPORT)
    <$> take 2 q.
Proof.
  intros Hr Hids. unfold request, first_two in *.
  cbn [visited]. unfold occupied. rewrite Hr.
  destruct q as [|p1 [|p2 q]]; cbn [lookup list_lookup fmap option_fmap
    option_map default at2 fst snd take list_fmap].
  - rewrite decide_False by (intros H; by apply H). done.
  - rewrite decide_True by (apply Hids; left).
    rewrite decide_False by (intros H; by apply H). done.
  - rewrite decide_True by (apply Hids; left).
    rewrite decide_True by (apply Hids; right; left). done.
Qed.

(** In the model of attach, where [hid_hw_start] is one entry of the
    log, the entries of an attach. *)
Lemma probe_started_calls env w :
  let h := the_hdev w in
  devm_kzalloc_ok env = true → hid_parse_ret env = 0 →
  wf_enum (report_enum h HID_FEATURE_REPORT) →
  ∃ w',
    hid_generic_probe env w = Some (hid_hw_start_ret env, w') ∧
    calls w' =
      calls w ++ [hid_parse] ++
      replicate (length (qualifying_fields h) - 2)
        (hid_err "invalid Resolution Multipliers") ++
      [hid_hw_start HID_CONNECT_DEFAULT] ++ attach_requests h.
Proof.
  intros h Hk Hp Hwf.
  destruct (discovered_at_attach w) as (Hprefix & Hres & Hcount).
  destruct (Hcount (proj1 Hwf)) as (_ & _ & Hreset).
  destruct (discovered_qualifying w (proj1 Hwf)) as (Hr & _ & Hlog & Hmult).
  destruct (hid_generic_set_resolution_multiplier_run (probe_started w))
    as (w' & Hrun & _ & Hc & _); [exact (Hres Hwf)|].
  exists w'. split.
  { rewrite hid_generic_probe_step by done.
    by rewrite (bind_Some _ _ _ _ _ Hrun). }
  rewrite Hc.
  change (drvdata (probe_started w)) with
    (discovered (the_hdev (probe_parsed w)) (drvdata (probe_parsed w))).1.
  set (r := discovered (the_hdev (probe_parsed w)) (drvdata (probe_parsed w)))
    in *.
  assert (calls (probe_started w) =
          calls w ++ [hid_parse] ++ r.2 ++ [hid_hw_start HID_CONNECT_DEFAULT])
    as ->.
  { unfold probe_started. cbv zeta. cbn [calls probe_parsed]. fold r.
    by rewrite <- !app_assoc. }
  rewrite Hlog. rewrite <- !app_assoc. do 4 f_equal.
  fold h in Hreset, Hmult, Hr.
  unfold activation_requests, attach_requests. cbv zeta.
  destruct (decide (length (qualifying_fields h) ≤ 2)%nat) as [Hle|Hgt].
  - destruct (Hmult Hle) as [Hw Hh]. rewrite Hw, Hh.
    destruct (Z.eqb_spec (last_multiplier h HID_GD_WHEEL (qualifying_fields h)) 1)
      as [E1|N1];
      destruct (Z.eqb_spec
                  (last_multiplier h HID_CP_AC_PAN (qualifying_fields h)) 1)
        as [E2|N2]; cbn [andb].
    1: { rewrite decide_False; [done|]. intros [_ H]. by apply H. }
    all: rewrite decide_True by (split; [done|intros [? ?]; done]);
      apply visited_first_two; [done|];
      intros p Hin; apply (qualifying_fields_ids h p (proj1 Hwf) Hin).
  - destruct (Hreset ltac:(lia)) as [-> ->]. cbn [Z.eqb andb].
    rewrite decide_False; [done|]. intros [? _]. done.
Qed.

Lemma attach_requests_are_requests h :
  filter (λ c, is_request c = true) (attach_requests h) = attach_requests h.
Proof.
  unfold attach_requests. cbv zeta. case_decide; [|done].
  induction (take 2 (qualifying_fields h)) as [|p q IH]; [done|].
  rewrite fmap_cons, filter_cons_True by done. by rewrite IH.
Qed.

(** X15: an attach on a well-formed feature report set, once the
    allocation and the parse have succeeded, logs the parse, then one
    error for each qualifying field after the second, then the start;
    all its requests come after the start, and they are none when more
    than two fields qualify or when both multipliers are 1, and
    otherwise one SET_REPORT for the report of the first and one for
    the report of the second qualifying field, in that order. *)
Theorem hid_generic_probe_log env w :
  let h := the_hdev w in
  devm_kzalloc_ok env = true → hid_parse_ret env = 0 →
  wf_enum (report_enum h HID_FEATURE_REPORT) →
  ∃ w' after,
    hid_generic_probe env w = Some (hid_hw_start_ret env, w') ∧
    calls w' =
      calls w ++ [hid_parse] ++
      replicate (length (qualifying_fields h) - 2)
        (hid_err "invalid Resolution Multipliers") ++
      [hid_hw_start HID_CONNECT_DEFAULT] ++ after ∧
    filter (λ c, is_request c = true) after = attach_requests h.
Proof.
  intros h Hk Hp Hwf.
  destruct (probe_started_calls env w Hk Hp Hwf) as (w' & Hrun & Hc).
  exists w', (attach_requests h).
  split; [exact Hrun|]. split; [exact Hc|].
  apply attach_requests_are_requests.
Qed.

Lemma hid_generic_probe_log_witness :
  ∃ w' after,
    hid_generic_probe Ex_env (Ex.world_of Ex.mouse (probe_drvdata Ex.mouse))
      = Some (-5, w') ∧
    calls w' =
      [] ++ [hid_parse] ++ [] ++ [hid_hw_start HID_CONNECT_DEFAULT] ++ after ∧
    filter (λ c, is_request c = true) after =
      [ hid_hw_request HID_FEATURE_REPORT 2 HID_REQ_SET_REPORT;
        hid_hw_request HID_FEATURE_REPORT 2 HID_REQ_SET_REPORT ].
Proof.
  apply (hid_generic_probe_log Ex_env
           (Ex.world_of Ex.mouse (probe_drvdata Ex.mouse))).
  - reflexivity.
  - reflexivity.
  - check_wf_enum.
Defined.

(** ** The matcher and the registry of drivers *)

Section MatcherRegistry.

Context {hid_driver : Type} `{EqDecision hid_driver}.
Variable hid_generic : hid_driver.
Variable hid_match_device : hid_device → hid_driver → bool.

Lemma hid_generic_match_unforced drivers hdev :
  hid_generic_match hid_generic hid_match_device drivers hdev false = true ↔
  ¬ flagged hdev ∧
  ∀ drv, drv ∈ drivers → drv ≠ hid_generic →
         hid_match_device hdev drv = false.
Proof.
  unfold hid_generic_match. rewrite flagged_land.
  rewrite <- bus_for_each_drv_check.
  destruct (Z.eqb_spec (Z.land (quirks hdev) HID_QUIRK_HAVE_SPECIAL_DRIVER) 0)
    as [E|N]; simpl.
  - destruct (Z.eqb_spec (bus_for_each_drv drivers hdev
      (__check_hid_generic hid_generic hid_match_device)) 0) as [E'|N'];
      simpl; split; try done.
    + intros _. split; [by intros H|done].
    + by intros [_ ?].
  - split; [done|]. by intros [H _].
Qed.

(** X14: the verdict of the matcher does not depend on the order in
    which the drivers are registered.  Without the force flag,
    registering one more driver leaves the verdict as it was when that
    driver is hid-generic itself or does not match the device, and
    turns it into a rejection when it is another driver that matches. *)
Theorem hid_generic_match_registry
    (drivers1 drivers2 : list hid_driver) hdev force drv :
  (drivers1 ≡ₚ drivers2 →
   hid_generic_match hid_generic hid_match_device drivers1 hdev force =
   hid_generic_match hid_generic hid_match_device drivers2 hdev force) ∧
  hid_generic_match hid_generic hid_match_device (drv :: drivers1) hdev false =
    negb (bool_decide (drv ≠ hid_generic) && hid_match_device hdev drv) &&
    hid_generic_match hid_generic hid_match_device drivers1 hdev false.
Proof.
  split.
  - intros Hperm. destruct force; [done|].
    apply eq_true_iff_eq. rewrite !hid_generic_match_unforced.
    split; intros [Hf Hall]; (split; [done|]); intros d Hd; apply Hall.
    + by rewrite Hperm.
    + by rewrite <- Hperm.
  - apply eq_true_iff_eq.
    rewrite andb_true_iff, negb_true_iff, !hid_generic_match_unforced.
    split.
    + intros [Hf Hall]. split.
      * destruct (decide (drv = hid_generic)) as [->|N].
        -- by rewrite bool_decide_false by (intros H; by apply H).
        -- rewrite bool_decide_true by done. simpl. apply Hall; [left|done].
      * split; [done|]. intros d Hd. apply Hall. by right.
    + intros [Hdrv [Hf Hall]]. split; [done|].
      intros d [->|Hd]%elem_of_cons Hne; [|by apply Hall].
      by rewrite bool_decide_true in Hdrv by done.
Qed.

End MatcherRegistry.

(** drivers 1 and 2 registered in either order; driver 2 matches the
    devices whose address is even, as the mouse *)
Lemma hid_generic_match_registry_witness :
  let matches := λ (h : hid_device) (drv : nat),
    bool_decide (drv = 2%nat) && Z.even (hdev_addr h) in
  hid_generic_match 0%nat matches [0; 1; 2]%nat Ex.mouse false =
    hid_generic_match 0%nat matches [2; 0; 1]%nat Ex.mouse false ∧
  hid_generic_match 0%nat matches [2; 0; 1]%nat Ex.mouse false = false.
Proof.
  intros matches.
  destruct (hid_generic_match_registry 0%nat matches
              [0; 1; 2]%nat [2; 0; 1]%nat Ex.mouse false 2%nat)
    as [Hperm _].
  split.
  - apply Hperm. change [2; 0; 1]%nat with ([2] ++ [0; 1])%nat.
    change [0; 1; 2]%nat with ([0; 1] ++ [2])%nat.
    apply Permutation_app_comm.
  - destruct (hid_generic_match_registry 0%nat matches
                [0; 1]%nat [0; 1]%nat Ex.mouse false 2%nat) as [_ Hcons].
    rewrite Hcons. reflexivity.
Defined.
